(** * bevacqua/js: the navigation snippet and the style guide's helpers

    The repository holds a JavaScript style guide (two copies of the
    guide text) and one DOM snippet, [basic.js].  This development
    embeds

    - [basic.js]: the body that binds a click listener to every
      element matched by the selector "nav a" (module [Nav], over the
      document model of module [Dom]);
    - the guide's [once], [format] and [util] examples (modules
      [Once], [Format] and [Util]).

    [basic.js] is the body of an enclosing callback: its last line
    closes a function whose opening line is not part of the file.  The
    body is embedded as [Nav.setup]; "setup" is one run of that body. *)

From Stdlib Require Import ZArith String Ascii List Bool Lia Sorted SpecFloat.
From stdpp Require Import base tactics option list strings gmap.

(** ** The document tree *)

Module Dom.

(** Identity of an element object.  Two elements are the same object
    exactly when their identifiers are equal. *)
Definition node_id := nat.

(** A node is a text node or an element with its local name, its
    [href] attribute when it has one, and its children in tree
    order. *)
#[local] Unset Elimination Schemes.
Inductive node : Type :=
| Text (data : string)
| Element (id : node_id) (localName : string) (href : option string)
          (childNodes : list node).
#[local] Set Elimination Schemes.

(** First [Some] produced by [f] along a list. *)
Definition first_some {A B : Type} (f : A -> option B) : list A -> option B :=
  fix go (l : list A) : option B :=
    match l with
    | [] => None
    | x :: l' => match f x with
                 | Some y => Some y
                 | None => go l'
                 end
    end.

(** Identifiers of the elements of a tree, in tree order. *)
Fixpoint ids (n : node) : list node_id :=
  match n with
  | Text _ => []
  | Element i _ _ kids => i :: concat (List.map ids kids)
  end.

(** Local names of the elements of a tree. *)
Fixpoint localNames (n : node) : list string :=
  match n with
  | Text _ => []
  | Element _ name _ kids => name :: concat (List.map localNames kids)
  end.

(** [Node.textContent] of an element: the data of its text
    descendants, concatenated in tree order. *)
Fixpoint textContent (n : node) : string :=
  match n with
  | Text s => s
  | Element _ _ _ kids => String.concat EmptyString (List.map textContent kids)
  end.

(** The element object with a given identity. *)
Fixpoint find_element (i : node_id) (n : node) : option node :=
  match n with
  | Text _ => None
  | Element j _ _ kids =>
      if Nat.eqb i j then Some n else first_some (find_element i) kids
  end.

(** The propagation path of an event whose target is [i]: the target
    first, then its ancestors up to the root. *)
Fixpoint event_path (i : node_id) (n : node) : option (list node) :=
  match n with
  | Text _ => None
  | Element j _ _ kids =>
      if Nat.eqb i j then Some [n]
      else match first_some (event_path i) kids with
           | Some p => Some (p ++ [n])
           | None => None
           end
  end.

(** [parent.appendChild(child)] for a newly created [child]. *)
Fixpoint appendChild (parent : node_id) (child : node) (n : node) : node :=
  match n with
  | Text s => Text s
  | Element j name h kids =>
      if Nat.eqb parent j then Element j name h (kids ++ [child])
      else Element j name h (List.map (appendChild parent child) kids)
  end.

(** Selectors of the fragment the snippet uses: a type selector, and
    the descendant combinator (written with a space). *)
Inductive selector : Type :=
| TypeSel (name : string)
| Descendant (ancestor : selector) (name : string).

(** Does an element with local name [name] match, when [ancs] are the
    local names of its ancestors, nearest first? *)
Fixpoint matches (sel : selector) (ancs : list string) (name : string) : bool :=
  match sel with
  | TypeSel t => String.eqb name t
  | Descendant s t =>
      String.eqb name t &&
      (fix some_ancestor (l : list string) : bool :=
         match l with
         | [] => false
         | a :: l' => matches s l' a || some_ancestor l'
         end) ancs
  end.

Fixpoint select (sel : selector) (ancs : list string) (n : node) : list node_id :=
  match n with
  | Text _ => []
  | Element i name _ kids =>
      (if matches sel ancs name then [i] else [])
        ++ concat (List.map (select sel (name :: ancs)) kids)
  end.

(** [document.querySelectorAll(sel)]: the matching elements in tree
    order, as a static list. *)
Definition querySelectorAll (sel : selector) (doc : node) : list node_id :=
  select sel [] doc.

Definition textContent_of (doc : node) (i : node_id) : option string :=
  match find_element i doc with
  | Some el => Some (textContent el)
  | None => None
  end.

Definition node_key (n : node) : option node_id :=
  match n with
  | Text _ => None
  | Element i _ _ _ => Some i
  end.

(** [event_path] and [find_element] agree on the element they find. *)
Definition path_agrees (i : node_id) (k : node) : Prop :=
  match find_element i k with
  | Some el => exists rest, event_path i k = Some (el :: rest)
  | None => event_path i k = None
  end.

End Dom.

(** ** JavaScript values *)

Module JS.

(** The primitive values the embedded code handles.  A Number is an
    IEEE 754 binary64 value. *)
Inductive value : Type :=
| VUndefined
| VNull
| VBool (b : bool)
| VNumber (x : SpecFloat.spec_float)
| VString (s : string).

End JS.

(** ** basic.js: click listeners on the navigation links *)

Module Nav.
Import Dom.

(** The function object created by the inner function expression of
    [basic.js]: its identity and the [link] variable it closes over. *)
Record closure : Type := { fn : nat; link : node_id }.

(** An entry of an event listener list.  [addEventListener] is called
    with two arguments, so every listener is a bubbling one. *)
Record listener : Type := { l_type : string; l_callback : closure }.

(** What the user can observe. *)
Inductive effect : Type :=
| PreventDefault
| Alert (message : string)
| Navigate (url : string).

(** The state of an event during its dispatch. *)
Record event : Type := { defaultPrevented : bool }.

(** The page: the live document, the listeners of every element in
    registration order, the allocator of function objects, the
    address of the current document and the observable trace. *)
Record page : Type := {
  document : node;
  registry : list (node_id * listener);
  next_fn : nat;
  location : string;
  log : list effect
}.

Definition emit (x : effect) (p : page) : page :=
  {| document := document p; registry := registry p; next_fn := next_fn p;
     location := location p; log := log p ++ [x] |}.

(** *** The click listener (basic.js, lines 4 to 7) *)

(** [e.preventDefault()]; a click event is cancelable. *)
Definition preventDefault (e : event) (p : page) : event * page :=
  ({| defaultPrevented := true |}, emit PreventDefault p).

(** [alert(message)] *)
Definition alert (message : string) (p : page) : page :=
  emit (Alert message) p.

(** [function (e) { e.preventDefault();
                    alert(`You clicked on ${link.textContent}`); }]
    The result is [None] only when [link] names no element of the
    document, which the model does not describe. *)
Definition handler (link : node_id) (e : event) (p : page)
  : option (JS.value * event * page) :=
  let '(e1, p1) := preventDefault e p in
  match textContent_of (document p1) link with
  | Some txt => Some (JS.VUndefined, e1, alert ("You clicked on " +:+ txt) p1)
  | None => None
  end.

(** *** Setup (basic.js, lines 1 to 8) *)

(** The parse of the selector text "nav a". *)
Definition nav_a : selector := Descendant (TypeSel "nav") "a".

Definition same_listener (t : node_id) (ty : string) (cb : closure)
           (x : node_id * listener) : bool :=
  Nat.eqb (fst x) t && String.eqb (l_type (snd x)) ty
    && Nat.eqb (fn (l_callback (snd x))) (fn cb).

(** [target.addEventListener(ty, cb)]: appends to the listener list
    of [target] unless it already holds this very callback for this
    type. *)
Definition addEventListener (t : node_id) (ty : string) (cb : closure)
           (p : page) : page :=
  if existsb (same_listener t ty cb) (registry p) then p
  else {| document := document p;
          registry := registry p ++ [(t, {| l_type := ty; l_callback := cb |})];
          next_fn := next_fn p; location := location p; log := log p |}.

(** Evaluating the function expression allocates a new function
    object. *)
Definition new_function (lnk : node_id) (p : page) : closure * page :=
  ({| fn := next_fn p; link := lnk |},
   {| document := document p; registry := registry p;
      next_fn := S (next_fn p); location := location p; log := log p |}).

(** The body of the [forEach] callback. *)
Definition bind_link (p : page) (lnk : node_id) : page :=
  let '(cb, p1) := new_function lnk p in
  addEventListener lnk "click" cb p1.

Definition setup (p : page) : page :=
  let navLinks := querySelectorAll nav_a (document p) in
  foldl bind_link p navLinks.

(** *** The browser: dispatch of a click *)

Fixpoint listeners_of (t : node_id) (ty : string)
         (reg : list (node_id * listener)) : list listener :=
  match reg with
  | [] => []
  | (t', l) :: reg' =>
      if Nat.eqb t' t && String.eqb (l_type l) ty
      then l :: listeners_of t ty reg'
      else listeners_of t ty reg'
  end.

Fixpoint run_listeners (ls : list listener) (e : event) (p : page)
  : option (event * page) :=
  match ls with
  | [] => Some (e, p)
  | l :: ls' =>
      match handler (link (l_callback l)) e p with
      | Some (_, e1, p1) => run_listeners ls' e1 p1
      | None => None
      end
  end.

(** Target phase, then bubbling: the listeners of each element of the
    path run in registration order. *)
Fixpoint propagate (path : list node) (e : event) (p : page)
  : option (event * page) :=
  match path with
  | [] => Some (e, p)
  | Text _ :: rest => propagate rest e p
  | Element t _ _ _ :: rest =>
      match run_listeners (listeners_of t "click" (registry p)) e p with
      | Some (e1, p1) => propagate rest e1 p1
      | None => None
      end
  end.

(** The hyperlink a click would follow.  The nearest [a] element on
    the path is the one the click activates: it is followed when it
    has an [href], and nothing happens when it has none.  ([a]
    elements are the only elements with an activation behaviour that
    the documents of this model hold.) *)
Fixpoint activation_target (path : list node) : option string :=
  match path with
  | [] => None
  | Element _ name h _ :: rest =>
      if String.eqb name "a" then h else activation_target rest
  | Text _ :: rest => activation_target rest
  end.

Definition navigate (url : string) (p : page) : page :=
  {| document := document p; registry := registry p; next_fn := next_fn p;
     location := url; log := log p ++ [Navigate url] |}.

(** A user click on the element [target]. *)
Definition click (target : node_id) (p : page) : option page :=
  match event_path target (document p) with
  | None => None
  | Some path =>
      match propagate path {| defaultPrevented := false |} p with
      | None => None
      | Some (e, p1) =>
          if defaultPrevented e then Some p1
          else match activation_target path with
               | Some url => Some (navigate url p1)
               | None => Some p1
               end
      end
  end.

(** *** What happens after setup *)

Inductive action : Type :=
| Click (target : node_id)
| AppendChild (parent : node_id) (child : node).

Definition fresh_for (child doc : node) : bool :=
  forallb (fun i => negb (existsb (Nat.eqb i) (ids doc))) (ids child)
    && bool_decide (NoDup (ids child)).

Definition step (a : action) (p : page) : option page :=
  match a with
  | Click t => click t p
  | AppendChild parent child =>
      if existsb (Nat.eqb parent) (ids (document p)) && fresh_for child (document p)
      then Some {| document := appendChild parent child (document p);
                   registry := registry p; next_fn := next_fn p;
                   location := location p; log := log p |}
      else None
  end.

Fixpoint run (acts : list action) (p : page) : option page :=
  match acts with
  | [] => Some p
  | a :: acts' => match step a p with
                  | Some p1 => run acts' p1
                  | None => None
                  end
  end.

(** The page as loaded, before any script has run. *)
Definition load (doc : node) (url : string) : page :=
  {| document := doc; registry := []; next_fn := 0; location := url; log := [] |}.

(** *** Vocabulary of the statements *)

Definition extend (p : page) (effs : list effect) : page :=
  {| document := document p; registry := registry p; next_fn := next_fn p;
     location := location p; log := log p ++ effs |}.

Definition click_listener (f : nat) (lnk : node_id) : listener :=
  {| l_type := "click"; l_callback := {| fn := f; link := lnk |} |}.

(** The entries one run of setup appends for the elements [links],
    when [f] is the next unused function identity. *)
Fixpoint new_entries (f : nat) (links : list node_id) : list (node_id * listener) :=
  match links with
  | [] => []
  | t :: links' => (t, click_listener f t) :: new_entries (S f) links'
  end.

(** What one run of a listener lets the user observe. *)
Definition handler_effects (doc : node) (l : listener) : list effect :=
  match textContent_of doc (link (l_callback l)) with
  | Some txt => [PreventDefault; Alert ("You clicked on " +:+ txt)]
  | None => [PreventDefault]
  end.

(** The listeners a dispatch along [path] invokes, in order. *)
Definition invoked (path : list node) (reg : list (node_id * listener)) : list listener :=
  concat (List.map (fun n => match n with
                             | Element t _ _ _ => listeners_of t "click" reg
                             | Text _ => []
                             end) path).

(** The listeners a click on [t] triggers. *)
Definition triggered (t : node_id) (p : page) : list listener :=
  match event_path t (document p) with
  | Some path => invoked path (registry p)
  | None => []
  end.

Definition entry_ok (p : page) (x : node_id * listener) : Prop :=
  fn (l_callback (snd x)) < next_fn p
  /\ link (l_callback (snd x)) = fst x
  /\ fst x ∈ ids (document p).

(** A page this program can be in: element identities are unique,
    every registered listener was made by this program for the
    element it is registered on, and function identities come from
    the allocator. *)
Definition well_formed (p : page) : Prop :=
  NoDup (ids (document p)) /\ Forall (entry_ok p) (registry p).

Definition is_navigation (x : effect) : bool :=
  match x with
  | Navigate _ => true
  | _ => false
  end.

(** The link of a listener is an element of the document. *)
Definition resolvable (doc : node) (l : listener) : Prop :=
  link (l_callback l) ∈ ids doc.

(** Every click of the action goes to an element with a click listener. *)
Definition targets_listened (reg : list (node_id * listener)) (a : action) : Prop :=
  match a with
  | Click t => listeners_of t "click" reg <> []
  | AppendChild _ _ => True
  end.

(** Example document:
    <html><nav><a href="/">Home</a><a href="/about"><b>About</b> us</a></nav>
          <a href="/out">Out</a></html> *)
Definition sample : node :=
  Element 0 "html" None
    [ Element 1 "nav" None
        [ Element 2 "a" (Some "/") [Text "Home"];
          Element 3 "a" (Some "/about")
            [Element 4 "b" None [Text "About"]; Text " us"] ];
      Element 5 "a" (Some "/out") [Text "Out"] ].

(** A document without links in its navigation, and one without a
    navigation container. *)
Definition bare : node :=
  Element 0 "html" None [Element 1 "nav" None [Text "soon"]].

Definition plain : node :=
  Element 0 "html" None [Element 1 "a" (Some "/") [Text "Home"]].

(** A navigation with an anchor inside another anchor:
    <html><nav><a href="/">Home</a>
               <a href="/go">Go <a href="/home">Home</a></a></nav></html> *)
Definition nested : node :=
  Element 0 "html" None
    [ Element 1 "nav" None
        [ Element 2 "a" (Some "/") [Text "Home"];
          Element 3 "a" (Some "/go")
            [Text "Go "; Element 4 "a" (Some "/home") [Text "Home"]] ] ].

End Nav.

(** ** The guide's [once] *)

Module Once.

(** How a call ends: with a value, or with a thrown exception. *)
Inductive completion : Type :=
| Return (v : JS.value)
| Throw (exn : JS.value).

(** What the wrapper hands back for the call that reaches [fn]. *)
Definition first_result (c : completion) : completion :=
  match c with
  | Return _ => Return JS.VUndefined
  | Throw x => Throw x
  end.

Section once.
(** Whatever state the wrapped function reads and writes. *)
Variable World : Type.

(** A function value, called with [this] and its arguments. *)
Definition function : Type :=
  JS.value -> list JS.value -> World -> completion * World.

Definition call : Type := (JS.value * list JS.value)%type.

(** The closure variable [ran], the world, and (for the statements
    below) the record of every invocation of [fn]. *)
Record state : Type := {
  ran : bool;
  invocations : list call;
  world : World
}.

(** [fn.apply(thisArg, args)] *)
Definition apply (fn : function) (thisArg : JS.value) (args : list JS.value)
           (s : state) : completion * state :=
  let '(c, w) := fn thisArg args (world s) in
  (c, {| ran := ran s;
         invocations := invocations s ++ [(thisArg, args)];
         world := w |}).

(** [function run () { if (ran) { return }; ran = true;
                       fn.apply(this, arguments); }]
    The value [fn] returns is dropped; an exception of [fn] passes
    through. *)
Definition run (fn : function) (this : JS.value) (arguments : list JS.value)
           (s : state) : completion * state :=
  if ran s then (Return JS.VUndefined, s)
  else
    let s1 := {| ran := true; invocations := invocations s; world := world s |} in
    match apply fn this arguments s1 with
    | (Return _, s2) => (Return JS.VUndefined, s2)
    | (Throw x, s2) => (Throw x, s2)
    end.

(** [once(fn)]: [var ran = false], and the wrapper [run fn]. *)
Definition once (w : World) : state :=
  {| ran := false; invocations := []; world := w |}.

(** Calling the wrapper again and again; a caller may catch an
    exception and call again. *)
Fixpoint run_all (fn : function) (cs : list call) (s : state)
  : list completion * state :=
  match cs with
  | [] => ([], s)
  | (this, arguments) :: cs' =>
      let '(c, s1) := run fn this arguments s in
      let '(rs, s2) := run_all fn cs' s1 in
      (c :: rs, s2)
  end.
End once.

End Once.

(** ** The guide's [format] *)

Module Format.

(** [GetSubstitution] for a search by string (no captures): in the
    replacement text, [$$] stands for [$], [$&] for the matched text,
    [$`] for the text before the match and [$'] for the text after
    it; any other [$] stands for itself. *)
Fixpoint GetSubstitution (matched preceding following template : string) : string :=
  match template with
  | EmptyString => EmptyString
  | String "$" (String "$" rest) =>
      String "$" (GetSubstitution matched preceding following rest)
  | String "$" (String "&" rest) =>
      matched +:+ GetSubstitution matched preceding following rest
  | String "$" (String "`" rest) =>
      preceding +:+ GetSubstitution matched preceding following rest
  | String "$" (String "'" rest) =>
      following +:+ GetSubstitution matched preceding following rest
  | String c rest => String c (GetSubstitution matched preceding following rest)
  end.

(** [text.replace(searchString, replaceValue)] for strings: only the
    first occurrence is replaced. *)
Definition replace (text searchString replaceValue : string) : string :=
  match String.index 0 searchString text with
  | None => text
  | Some position =>
      let tailPos := position + String.length searchString in
      let preceding := String.substring 0 position text in
      let following := String.substring tailPos (String.length text - tailPos) text in
      preceding
        +:+ GetSubstitution searchString preceding following replaceValue
        +:+ following
  end.

Definition replacer (text replacement : string) : string :=
  replace text "%s" replacement.

(** [format(initial, ...args)] on strings:
    [args.reduce(replacer, initial)]. *)
Definition format (initial : string) (args : list string) : string :=
  fold_left replacer args initial.

(** In the words of the specification: the first occurrence of [%s] is
    replaced by the argument itself; without an occurrence the text
    stays as it is. *)
Definition spec_replace_first (text arg : string) : string :=
  match String.index 0 "%s" text with
  | None => text
  | Some position =>
      String.substring 0 position text
        +:+ arg
        +:+ String.substring (position + 2) (String.length text - (position + 2)) text
  end.

(** In the words of the specification: the arguments are used up in
    order. *)
Definition spec_format (initial : string) (args : list string) : string :=
  fold_left spec_replace_first args initial.

Fixpoint dollar_free (s : string) : bool :=
  match s with
  | EmptyString => true
  | String c rest => negb (Ascii.eqb c "$") && dollar_free rest
  end.

End Format.

(** ** The guide's [util] factory *)

Module Util.
Import JS.

Definition prec : Z := 53.
Definition emax : Z := 1024.

Definition number : Type := spec_float.

(** The Number of an integer literal: the nearest binary64 value. *)
Definition of_Z (z : Z) : number := binary_normalize prec emax z 0 false.

(** [x + y] on Numbers (Number::add). *)
Definition Number_add (x y : number) : number := SFadd prec emax x y.

Definition ToBoolean (v : value) : bool :=
  match v with
  | VUndefined | VNull => false
  | VBool b => b
  | VNumber (S754_zero _) | VNumber S754_nan => false
  | VNumber _ => true
  | VString s => negb (String.eqb s EmptyString)
  end.

Section util.
(** The built-in conversion of a string to a Number. *)
Variable StringToNumber : string -> number.

Definition ToNumber (v : value) : number :=
  match v with
  | VUndefined => S754_nan
  | VNull => of_Z 0
  | VBool true => of_Z 1
  | VBool false => of_Z 0
  | VNumber x => x
  | VString s => StringToNumber s
  end.

(** An options object: its own properties. *)
Definition object : Type := gmap string value.

(** [options.start]; a missing property reads as [undefined]. *)
Definition get (o : object) (key : string) : value :=
  default VUndefined (o !! key).

(** The private variable [foo]. *)
Record state : Type := { foo : value }.

(** [foo = options.start || 0] *)
Definition reset (options : object) (s : state) : state :=
  let start := get options "start" in
  {| foo := if ToBoolean start then start else VNumber (of_Z 0) |}.

(** [return foo++]: the old value as a Number, and the increment. *)
Definition add (s : state) : value * state :=
  let old := ToNumber (foo s) in
  (VNumber old, {| foo := VNumber (Number_add old (of_Z 1)) |}).

(** [util(options)]: [var foo; reset();] and the returned object,
    whose only method [uuid] is [add]. *)
Definition util (options : object) : state :=
  reset options {| foo := VUndefined |}.

Definition uuid : state -> value * state := add.

(** The values returned by [k] calls in a row. *)
Fixpoint calls (k : nat) (s : state) : list value :=
  match k with
  | O => []
  | S k' => let '(v, s1) := uuid s in v :: calls k' s1
  end.
End util.

(** *** Vocabulary of the statements *)

(** The Numbers [x], [x + 1], [(x + 1) + 1], ...: [k] of them. *)
Fixpoint increments (k : nat) (x : number) : list number :=
  match k with
  | O => []
  | S k' => x :: increments k' (Number_add x (of_Z 1))
  end.

(** [k] consecutive integers from [n] on. *)
Fixpoint consecutive (n : Z) (k : nat) : list Z :=
  match k with
  | O => []
  | S k' => n :: consecutive (n + 1) k'
  end.

(** [q] followed by [k] binary zeros: [q * 2^k]. *)
Fixpoint shifted (k : nat) (q : positive) : positive :=
  match k with
  | O => q
  | S k' => xO (shifted k' q)
  end.

(** A conversion under which no string is a numeral, for examples
    in which no string is converted. *)
Definition no_numeral : string -> number := fun _ => S754_nan.

Definition two_pow_53 : number := of_Z 9007199254740992.

(** [u < v] for two Numbers. *)
Definition value_lt (u v : value) : Prop :=
  match u, v with
  | VNumber x, VNumber y => SFltb x y = true
  | _, _ => False
  end.

End Util.

(** ** Further snippets of the guide *)

Module Guide.
Import JS Util.

(** *** Values of every kind *)

(** A primitive value: one of the five kinds of [JS.value], a BigInt
    or a Symbol. *)
Inductive primitive : Type :=
| PValue (v : value)
| PBigInt (z : Z)
| PSymbol (id : nat).

(** Any value: a primitive, or a reference to an object.  What an
    object is, is left to the heap: the operations below take the
    answers of the heap as parameters. *)
Inductive any (Obj : Type) : Type :=
| Prim (p : primitive)
| Ref (o : Obj).
Arguments Prim {Obj} p.
Arguments Ref {Obj} o.

(** What an operation throws: the [TypeError] that a built-in step
    creates, or whatever the code of an object throws. *)
Inductive exception (Obj : Type) : Type :=
| TypeError
| Thrown (v : any Obj).
Arguments TypeError {Obj}.
Arguments Thrown {Obj} v.

(** How an operation ends. *)
Inductive completion (Obj A : Type) : Type :=
| Normal (a : A)
| Throws (e : exception Obj).
Arguments Normal {Obj A} a.
Arguments Throws {Obj A} e.

(** *** Equality: the two versions of [isEmptyString] *)

(** [x === y] on Numbers: [NaN] equals nothing, [+0] equals [-0]. *)
Definition Number_equal (x y : number) : bool := SFeqb x y.

(** [x === y] *)
Definition IsStrictlyEqual (x y : value) : bool :=
  match x, y with
  | VUndefined, VUndefined => true
  | VNull, VNull => true
  | VBool a, VBool b => Bool.eqb a b
  | VNumber a, VNumber b => Number_equal a b
  | VString a, VString b => String.eqb a b
  | _, _ => false
  end.

Section equality.
(** The built-in conversion of a string to a Number. *)
Variable StringToNumber : string -> number.

(** [x == y] when neither operand is a Boolean. *)
Definition loosely_equal_unboxed (x y : value) : bool :=
  match x, y with
  | VUndefined, VNull => true
  | VNull, VUndefined => true
  | VNumber a, VString s => Number_equal a (StringToNumber s)
  | VString s, VNumber b => Number_equal (StringToNumber s) b
  | _, _ => IsStrictlyEqual x y
  end.

(** A Boolean operand of [==] is replaced by its Number. *)
Definition unbool (v : value) : value :=
  match v with
  | VBool b => VNumber (ToNumber StringToNumber (VBool b))
  | _ => v
  end.

(** [x == y] *)
Definition IsLooselyEqual (x y : value) : bool :=
  match x, y with
  | VBool a, VBool b => Bool.eqb a b
  | _, _ => loosely_equal_unboxed (unbool x) (unbool y)
  end.

(** The built-in conversion of a string to a BigInt; [None] when the
    string is not the text of an integer. *)
Variable StringToBigInt : string -> option Z.

Variable Obj : Type.

(** The conversion of an object to a primitive, which runs the
    [Symbol.toPrimitive], [valueOf] or [toString] method the object
    has. *)
Variable object_to_primitive : Obj -> completion Obj primitive.

(** [ToPrimitive(x)]: a primitive is left as it is. *)
Definition ToPrimitive (x : any Obj) : completion Obj primitive :=
  match x with
  | Prim p => Normal p
  | Ref o => object_to_primitive o
  end.

(** [p == s] for a primitive [p] and a string [s]. *)
Definition primitive_equals_string (p : primitive) (s : string) : bool :=
  match p with
  | PValue v => IsLooselyEqual v (VString s)
  | PBigInt z => match StringToBigInt s with
                 | Some n => Z.eqb z n
                 | None => false
                 end
  | PSymbol _ => false
  end.

(** [x == s] for a string [s]: an object is converted to a primitive
    first. *)
Definition equals_string (x : any Obj) (s : string) : completion Obj bool :=
  match ToPrimitive x with
  | Normal p => Normal (primitive_equals_string p s)
  | Throws e => Throws e
  end.

(** [function isEmptyString (text) { return text == ''; }] *)
Definition isEmptyString_loose (text : any Obj) : completion Obj bool :=
  equals_string text EmptyString.
End equality.
Arguments ToPrimitive {Obj} object_to_primitive x.
Arguments equals_string StringToNumber StringToBigInt {Obj} object_to_primitive x s.
Arguments isEmptyString_loose StringToNumber StringToBigInt {Obj} object_to_primitive text.

(** [x === s] for a string [s]: nothing is converted. *)
Definition strictly_equals_string {Obj : Type} (x : any Obj) (s : string) : bool :=
  match x with
  | Prim (PValue v) => IsStrictlyEqual v (VString s)
  | _ => false
  end.

(** [function isEmptyString (text) { return text === ''; }] *)
Definition isEmptyString {Obj : Type} (text : any Obj) : bool :=
  strictly_equals_string text EmptyString.

(** *** Ternaries: [calculate] and [getName] *)

(** [a && b] *)
Definition logical_and (a b : value) : value := if ToBoolean a then b else a.

(** [return a && b ? 11 : a ? 10 : b ? 1 : 0;] *)
Definition calculate (a b : value) : value :=
  if ToBoolean (logical_and a b) then VNumber (of_Z 11)
  else if ToBoolean a then VNumber (of_Z 10)
  else if ToBoolean b then VNumber (of_Z 1)
  else VNumber (of_Z 0).

Section property_read.
Variable Obj : Type.

(** The objects that are falsy (in a browser, [document.all]). *)
Variable IsHTMLDDA : Obj -> bool.

(** Reading a property of an object: the value of a data property,
    the result of running a getter or a proxy trap, which may throw,
    or [undefined] when there is no such property. *)
Variable Get : Obj -> string -> completion Obj (any Obj).

(** Reading a property of a primitive other than [undefined] and
    [null]: the property is looked up from the prototype of its
    type. *)
Variable primitive_get : primitive -> string -> completion Obj (any Obj).

(** [ToBoolean] on values of every kind. *)
Definition truthy (x : any Obj) : bool :=
  match x with
  | Prim (PValue v) => ToBoolean v
  | Prim (PBigInt z) => negb (Z.eqb z 0)
  | Prim (PSymbol _) => true
  | Ref o => negb (IsHTMLDDA o)
  end.

(** [x.key] *)
Definition get_property (x : any Obj) (key : string) : completion Obj (any Obj) :=
  match x with
  | Prim (PValue VUndefined) => Throws TypeError
  | Prim (PValue VNull) => Throws TypeError
  | Prim p => primitive_get p key
  | Ref o => Get o key
  end.

(** [return mobile ? mobile.name : 'Generic Player';] *)
Definition getName (mobile : any Obj) : completion Obj (any Obj) :=
  if truthy mobile then get_property mobile "name"
  else Normal (Prim (PValue (VString "Generic Player"))).
End property_read.
Arguments truthy {Obj} IsHTMLDDA x.
Arguments get_property {Obj} Get primitive_get x key.
Arguments getName {Obj} IsHTMLDDA Get primitive_get mobile.

(** *** Functions: [sum] and its bound versions *)

Section plus.
Variable StringToNumber : string -> number.
(** The built-in conversion of a Number to a string. *)
Variable NumberToString : number -> string.

Definition ToString (v : value) : string :=
  match v with
  | VUndefined => "undefined"
  | VNull => "null"
  | VBool true => "true"
  | VBool false => "false"
  | VNumber x => NumberToString x
  | VString s => s
  end.

(** [x + y]: concatenation when either operand is a string, addition
    of Numbers otherwise. *)
Definition plus (x y : value) : value :=
  match x, y with
  | VString _, _ => VString (ToString x +:+ ToString y)
  | _, VString _ => VString (ToString x +:+ ToString y)
  | _, _ => VNumber (Number_add (ToNumber StringToNumber x) (ToNumber StringToNumber y))
  end.

(** [function sum (x, y) { return x + y; }] *)
Definition sum (x y : value) : value := plus x y.

(** The [k]-th argument of a call; a missing one is [undefined]. *)
Definition argument (args : list value) (k : nat) : value :=
  default VUndefined (args !! k).

(** [sum] as a function object, called with a list of arguments. *)
Definition sum_call (args : list value) : value :=
  sum (argument args 0) (argument args 1).

(** [f.bind(null, ...bound)] for an [f] that does not use [this]. *)
Definition bind (f : list value -> value) (bound : list value) : list value -> value :=
  fun args => f (bound ++ args).

(** [var plusThree = sum.bind(null, 3);] *)
Definition plusThree : list value -> value := bind sum_call [VNumber (of_Z 3)].

(** [var addSeven = sum.bind(null, 7);] *)
Definition addSeven : list value -> value := bind sum_call [VNumber (of_Z 7)].
End plus.

(** *** Prototypes: [half] *)

(** [return text.substr(0, text.length / 2);] where [substr] drops the
    fraction of its length argument. *)
Definition half (text : string) : string :=
  String.substring 0 (String.length text / 2) text.

(** *** Conditionals: nested tests and guard clauses *)

(** [if (car) { if (black) { if (turbine) { return 'batman!'; } } }] *)
Definition batman_nested (car black turbine : value) : value :=
  if ToBoolean car then
    if ToBoolean black then
      if ToBoolean turbine then VString "batman!" else VUndefined
    else VUndefined
  else VUndefined.

(** [if (!car) { return; } if (!black) { return; }
     if (!turbine) { return; } return 'batman!';] *)
Definition batman_guarded (car black turbine : value) : value :=
  if negb (ToBoolean car) then VUndefined
  else if negb (ToBoolean black) then VUndefined
  else if negb (ToBoolean turbine) then VUndefined
  else VString "batman!".

(** *** Loops *)

(** [for (i = start; cond; i++) body], with the loop variable and the
    state it works on; [None] when the fuel runs out. *)
Fixpoint for_loop {S : Type} (fuel : nat) (cond : nat -> S -> bool)
         (body : nat -> S -> S) (i : nat) (s : S) : option (nat * S) :=
  match fuel with
  | O => if cond i s then None else Some (i, s)
  | Datatypes.S fuel' =>
      if cond i s then for_loop fuel' cond body (Datatypes.S i) (body i s)
      else Some (i, s)
  end.

(** An array: a slot is a hole until it is assigned. *)
Definition array : Type := list (option value).

(** [a[i]] *)
Definition array_get (a : array) (i : nat) : value :=
  match a !! i with
  | Some (Some v) => v
  | _ => VUndefined
  end.

(** [new Array(n)] *)
Definition new_Array (n : nat) : array := replicate n None.

(** [[].slice.call(arguments)] *)
Definition slice_call (arguments : list value) : array := Some <$> arguments.

(** [var args = new Array(arguments.length);
     for (i = 0; i < args.length; i++) { args[i] = arguments[i]; }] *)
Definition copy_arguments (fuel : nat) (arguments : list value) : option array :=
  let args := new_Array (length arguments) in
  match for_loop fuel
          (fun i args => Nat.ltb i (length args))
          (fun i args => <[i := Some (argument arguments i)]> args)
          0 args with
  | Some (_, args') => Some args'
  | None => None
  end.

(** *** Functions declared in loops: timers *)

(** The function expressions handed to [setTimeout]. *)
Inductive callback : Type :=
| ReadShared
| ReadCaptured (i : nat)
| ReadParameter
| LogValue (v : value).

Record timer : Type := {
  timeout : nat;
  callee : callback;
  extra : list nat
}.

(** A timer fires after those with a shorter or equal timeout. *)
Fixpoint schedule (t : timer) (queue : list timer) : list timer :=
  match queue with
  | [] => [t]
  | u :: queue' =>
      if Nat.ltb (timeout t) (timeout u) then t :: u :: queue'
      else u :: schedule t queue'
  end.

(** [setTimeout(callee, timeout, ...extra)] *)
Definition setTimeout (c : callback) (ms : nat) (args : list nat)
           (queue : list timer) : list timer :=
  schedule {| timeout := ms; callee := c; extra := args |} queue.

(** [values[i]] *)
Definition values_at (values : list value) (i : nat) : value :=
  default VUndefined (values !! i).

(** What a timer logs when it fires, [i] being the current value of
    the script's variable [i]. *)
Definition fire (values : list value) (i : nat) (t : timer) : value :=
  match callee t with
  | ReadShared => values_at values i
  | ReadCaptured k => values_at values k
  | ReadParameter =>
      match extra t with
      | k :: _ => values_at values k
      | [] => VUndefined
      end
  | LogValue v => v
  end.

(** The console after every timer has fired. *)
Definition drain (values : list value) (i : nat) (queue : list timer) : list value :=
  List.map (fire values i) queue.

Definition in_range (values : list value) (i : nat) (queue : list timer) : bool :=
  Nat.ltb i (length values).

(** [setTimeout(function () { console.log(values[i]); }, 1000 * i);]
    in the loop. *)
Definition loop_shared (fuel : nat) (values : list value) : option (list value) :=
  match for_loop fuel (in_range values)
          (fun i queue => setTimeout ReadShared (1000 * i) [] queue) 0 [] with
  | Some (i, queue) => Some (drain values i queue)
  | None => None
  end.

(** [setTimeout(function (i) { return function () {
       console.log(values[i]); }; }(i), 1000 * i);] in the loop. *)
Definition loop_captured (fuel : nat) (values : list value) : option (list value) :=
  match for_loop fuel (in_range values)
          (fun i queue => setTimeout (ReadCaptured i) (1000 * i) [] queue) 0 [] with
  | Some (i, queue) => Some (drain values i queue)
  | None => None
  end.

(** [setTimeout(function (i) { console.log(values[i]); }, 1000 * i, i);]
    in the loop. *)
Definition loop_parameter (fuel : nat) (values : list value) : option (list value) :=
  match for_loop fuel (in_range values)
          (fun i queue => setTimeout ReadParameter (1000 * i) [i] queue) 0 [] with
  | Some (i, queue) => Some (drain values i queue)
  | None => None
  end.

(** [function wait (i) { setTimeout(function () {
       console.log(values[i]); }, 1000 * i); }] *)
Definition wait (i : nat) (queue : list timer) : list timer :=
  setTimeout (ReadCaptured i) (1000 * i) [] queue.

(** [for (...) { wait(i); }] *)
Definition loop_wait (fuel : nat) (values : list value) : option (list value) :=
  match for_loop fuel (in_range values) wait 0 [] with
  | Some (i, queue) => Some (drain values i queue)
  | None => None
  end.

(** [values.forEach(function (value, i) { setTimeout(function () {
       console.log(value); }, 1000 * i); });]
    There is no variable [i] outside the callback. *)
Definition forEach_timers (values : list value) : list value :=
  let queue :=
    foldl (fun queue '(i, v) => setTimeout (LogValue v) (1000 * i) [] queue)
          [] (imap (fun i v => (i, v)) values) in
  List.map (fire values 0) queue.

(** *** Regular expressions: [/\d+/.test(text)] *)

(** [\d]: a decimal digit. *)
Definition is_digit (c : ascii) : bool :=
  Nat.leb 48 (nat_of_ascii c) && Nat.leb (nat_of_ascii c) 57.

(** [\d+] tried at the start of [s]: the number of characters it
    takes, when it matches. *)
Fixpoint digits_at_start (s : string) : option nat :=
  match s with
  | EmptyString => None
  | String c rest =>
      if is_digit c
      then match digits_at_start rest with
           | Some n => Some (S n)
           | None => Some 1
           end
      else None
  end.

(** [numeric.test(text)]: the pattern is tried at each position in
    turn. *)
Fixpoint numeric_test (text : string) : bool :=
  match digits_at_start text with
  | Some _ => true
  | None =>
      match text with
      | EmptyString => false
      | String _ rest => numeric_test rest
      end
  end.

(** [if (numeric.test(text)) { console.log('so many numbers!'); }] *)
Definition log_if_numeric (text : string) : list string :=
  if numeric_test text then ["so many numbers!"] else [].

(** *** Strings: the markup built with [format] *)

Definition double_quote : string := String (Ascii.ascii_of_nat 34) EmptyString.

(** The first argument of [format] in the snippet. *)
Definition monster_template : string :=
  "<span class=" +:+ double_quote +:+ "monster" +:+ double_quote +:+ ">%s</span>".

(** [parts.join('')] *)
Definition join (parts : list string) : string := String.concat EmptyString parts.

(** [var html = ['<div>', format(..., name), '</div>'].join('');] *)
Definition html (name : string) : string :=
  join ["<div>"; Format.format monster_template [name]; "</div>"].

(** Conversions that know the empty string only. *)
Definition empty_is_zero (s : string) : number :=
  if String.eqb s EmptyString then S754_zero false else S754_nan.

Definition empty_is_zero_bigint (s : string) : option Z :=
  if String.eqb s EmptyString then Some 0%Z else None.

(** A heap with two objects: an empty array, which converts to the
    empty string, and an object whose conversion and whose [name]
    getter throw the string "no". *)
Inductive two_objects : Type :=
| empty_array
| thrower.

Definition two_objects_to_primitive (o : two_objects)
  : completion two_objects primitive :=
  match o with
  | empty_array => Normal (PValue (VString EmptyString))
  | thrower => Throws (Thrown (Prim (PValue (VString "no"))))
  end.

Definition two_objects_Get (o : two_objects) (key : string)
  : completion two_objects (any two_objects) :=
  match o with
  | empty_array => Normal (Prim (PValue VUndefined))
  | thrower => Throws (Thrown (Prim (PValue (VString "no"))))
  end.

Definition is_string (v : value) : bool :=
  match v with
  | VString _ => true
  | _ => false
  end.

(** Every [$] written twice. *)
Fixpoint double_dollars (r : string) : string :=
  match r with
  | EmptyString => EmptyString
  | String c rest =>
      if Ascii.eqb c "$" then String "$" (String "$" (double_dollars rest))
      else String c (double_dollars rest)
  end.

End Guide.

(** * Properties *)

(** ** Facts about the document tree *)

Module DomFacts.
Import Dom.

Section node_induction.
Variable P : node -> Prop.
Hypothesis P_text : forall s, P (Text s).
Hypothesis P_element :
  forall i name h kids, Forall P kids -> P (Element i name h kids).

Lemma node_nested_ind : forall n, P n.
Proof.
  fix IH 1. intros [s | i name h kids].
  - apply P_text.
  - apply P_element. induction kids as [| k ks IHks].
    + constructor.
    + constructor; [apply IH | exact IHks].
Qed.
End node_induction.

Lemma elem_of_concat_map {A B : Type} (f : A -> list B) (l : list A) (y : B) :
  y ∈ concat (List.map f l) <-> exists x, x ∈ l /\ y ∈ f x.
Proof.
  induction l as [| a l IH]; simpl.
  - split; [intros H; inversion H | intros (x & H & _); inversion H].
  - rewrite elem_of_app, IH. split.
    + intros [H | (x & Hx & Hy)].
      * exists a. split; [left | exact H].
      * exists x. split; [right; exact Hx | exact Hy].
    + intros (x & Hx & Hy). apply elem_of_cons in Hx as [-> | Hx].
      * left. exact Hy.
      * right. exists x. auto.
Qed.

Lemma first_some_None {A B : Type} (f : A -> option B) (l : list A) :
  first_some f l = None <-> Forall (fun x => f x = None) l.
Proof.
  induction l as [| a l IH]; simpl.
  - split; [constructor | reflexivity].
  - destruct (f a) eqn:Ha.
    + split; [discriminate | intros H; inversion H; congruence].
    + rewrite IH. split; [intros H; constructor; assumption | intros H; inversion H; assumption].
Qed.

Lemma first_some_Some {A B : Type} (f : A -> option B) (l : list A) (y : B) :
  first_some f l = Some y -> exists x, x ∈ l /\ f x = Some y.
Proof.
  induction l as [| a l IH]; simpl; [discriminate |].
  destruct (f a) eqn:Ha.
  - intros [= <-]. exists a. split; [left | exact Ha].
  - intros H. destruct (IH H) as (x & Hx & Hy). exists x. split; [right; exact Hx | exact Hy].
Qed.

(** An element is found exactly when its identifier occurs in the tree. *)
Lemma find_element_None (i : node_id) (n : node) :
  find_element i n = None <-> i ∉ ids n.
Proof.
  induction n as [s | j name h kids IH] using node_nested_ind; simpl.
  - split; [intros _ H; inversion H | reflexivity].
  - destruct (Nat.eqb_spec i j) as [-> | Hne].
    + split; [discriminate | intros H; exfalso; apply H; left].
    + rewrite first_some_None, not_elem_of_cons, elem_of_concat_map.
      rewrite Forall_forall in IH. rewrite Forall_forall. split.
      * intros H. split; [exact Hne |]. intros (k & Hk & Hi).
        apply (IH k Hk) in Hi; [exact Hi | apply H; exact Hk].
      * intros [_ H] k Hk. apply IH; [exact Hk |]. intros Hi. apply H. exists k. auto.
Qed.

Lemma find_element_key (i : node_id) (n el : node) :
  find_element i n = Some el -> node_key el = Some i.
Proof.
  revert el. induction n as [s | j name h kids IH] using node_nested_ind; simpl; intros el.
  - discriminate.
  - destruct (Nat.eqb_spec i j) as [-> | Hne].
    + intros [= <-]. reflexivity.
    + intros H. apply first_some_Some in H as (k & Hk & Hf).
      rewrite Forall_forall in IH. exact (IH k Hk el Hf).
Qed.

Lemma find_element_is_Some (i : node_id) (n : node) :
  i ∈ ids n -> exists el, find_element i n = Some el /\ node_key el = Some i.
Proof.
  intros Hi. destruct (find_element i n) as [el |] eqn:Hf.
  - exists el. split; [reflexivity | exact (find_element_key _ _ _ Hf)].
  - apply find_element_None in Hf. contradiction.
Qed.

Lemma textContent_of_is_Some (doc : node) (i : node_id) :
  i ∈ ids doc ->
  exists el, find_element i doc = Some el /\ textContent_of doc i = Some (textContent el).
Proof.
  intros Hi. destruct (find_element_is_Some i doc Hi) as (el & Hf & _).
  exists el. unfold textContent_of. rewrite Hf. auto.
Qed.

Lemma first_some_path (i : node_id) (kids : list node) :
  Forall (path_agrees i) kids ->
  match first_some (find_element i) kids with
  | Some el => exists rest, first_some (event_path i) kids = Some (el :: rest)
  | None => first_some (event_path i) kids = None
  end.
Proof.
  induction 1 as [| k ks Hk _ IH]; simpl; [reflexivity |].
  unfold path_agrees in Hk. destruct (find_element i k) as [el |].
  - destruct Hk as [rest ->]. exists rest. reflexivity.
  - rewrite Hk. exact IH.
Qed.

(** The propagation path starts at the element [find_element] returns. *)
Lemma event_path_find (i : node_id) (n : node) : path_agrees i n.
Proof.
  induction n as [s | j name h kids IH] using node_nested_ind;
    unfold path_agrees; simpl.
  - reflexivity.
  - destruct (Nat.eqb_spec i j) as [-> | Hne].
    + exists []. reflexivity.
    + pose proof (first_some_path i kids IH) as H.
      destruct (first_some (find_element i) kids) as [el |].
      * destruct H as [rest ->]. exists (rest ++ [Element j name h kids]). reflexivity.
      * rewrite H. reflexivity.
Qed.

(** A query returns elements of the document, each at most as often
    as the document holds it, in tree order. *)
Lemma select_sublist (sel : selector) (ancs : list string) (n : node) :
  select sel ancs n `sublist_of` ids n.
Proof.
  revert ancs. induction n as [s | j name h kids IH] using node_nested_ind;
    intros ancs; simpl.
  - constructor.
  - assert (Hk : concat (List.map (select sel (name :: ancs)) kids)
                   `sublist_of` concat (List.map ids kids)).
    { induction IH as [| k ks Hk _ IHks]; simpl; [constructor |].
      apply sublist_app; [apply Hk | exact IHks]. }
    destruct (matches sel ancs name); simpl.
    + apply sublist_skip. exact Hk.
    + apply sublist_cons. exact Hk.
Qed.

Lemma querySelectorAll_NoDup (sel : selector) (doc : node) :
  NoDup (ids doc) -> NoDup (querySelectorAll sel doc).
Proof. intros H. eapply sublist_NoDup; [exact H | apply select_sublist]. Qed.

Lemma querySelectorAll_ids (sel : selector) (doc : node) (i : node_id) :
  i ∈ querySelectorAll sel doc -> i ∈ ids doc.
Proof. intros H. eapply elem_of_sublist; [exact H | apply select_sublist]. Qed.

(** The selector "nav a" matches only [a] elements below a [nav]. *)
Lemma matches_nav_a (ancs : list string) (name : string) :
  matches (Descendant (TypeSel "nav") "a") ancs name = true ->
  name = "a" /\ "nav" ∈ ancs.
Proof.
  simpl. intros H. apply andb_prop in H as [Hn Ha].
  apply String.eqb_eq in Hn. split; [exact Hn |]. clear Hn.
  induction ancs as [| a l IH]; [discriminate |].
  apply orb_prop in Ha as [Ha | Ha].
  - apply String.eqb_eq in Ha. subst a. left.
  - right. exact (IH Ha).
Qed.

Lemma select_nav_a_nil (ancs : list string) (n : node) :
  "nav" ∉ ancs ->
  "nav" ∉ localNames n \/ "a" ∉ localNames n ->
  select (Descendant (TypeSel "nav") "a") ancs n = [].
Proof.
  revert ancs. induction n as [s | j name h kids IH] using node_nested_ind;
    intros ancs Hancs Hn; [reflexivity |].
  cbn [select].
  destruct (matches (Descendant (TypeSel "nav") "a") ancs name) eqn:Hm.
  { apply matches_nav_a in Hm as [_ Hm]. contradiction. }
  cbn [app]. cbn [localNames] in Hn.
  assert (Hname : name = "nav" -> "a" ∉ name :: concat (List.map localNames kids)).
  { intros ->. destruct Hn as [Hn | Hn]; [exfalso; apply Hn; left | exact Hn]. }
  induction IH as [| k ks Hk _ IHks]; [reflexivity |].
  cbn [List.map concat] in *.
  assert (Hsub : "nav" ∉ localNames k \/ "a" ∉ localNames k).
  { destruct Hn as [Hn | Hn]; [left | right]; intros Hin; apply Hn;
      right; apply elem_of_app; left; exact Hin. }
  destruct (String.eqb_spec name "nav") as [-> | Hne].
  - (* below a [nav]: no [a] at all *)
    assert (Ha : "a" ∉ "nav" :: localNames k ++ concat (List.map localNames ks))
      by (apply Hname; reflexivity).
    clear Hk IHks.
    assert (Hno : forall m anc, "a" ∉ localNames m ->
              select (Descendant (TypeSel "nav") "a") anc m = []).
    { clear. intros m. induction m as [s | j name h kids IH] using node_nested_ind;
        intros anc Hm; [reflexivity |].
      cbn [select]. cbn [localNames] in Hm.
      destruct (matches (Descendant (TypeSel "nav") "a") anc name) eqn:Hmt.
      { apply matches_nav_a in Hmt as [-> _]. exfalso. apply Hm. left. }
      cbn [app]. apply not_elem_of_cons in Hm as [_ Hm].
      induction IH as [| k ks Hk _ IHks]; [reflexivity |].
      cbn [List.map concat] in *. apply not_elem_of_app in Hm as [Hm1 Hm2].
      rewrite (Hk _ Hm1), (IHks Hm2). reflexivity. }
    apply not_elem_of_cons in Ha as [_ Ha].
    apply not_elem_of_app in Ha as [Ha1 Ha2].
    rewrite (Hno k _ Ha1). cbn [app].
    clear Hsub Hn Hname Hm Ha1.
    induction ks as [| k' ks' IHks']; [reflexivity |].
    cbn [List.map concat] in *. apply not_elem_of_app in Ha2 as [Hb1 Hb2].
    rewrite (Hno k' _ Hb1), (IHks' Hb2). reflexivity.
  - rewrite Hk; [| | exact Hsub].
    + cbn [app]. apply IHks.
      * destruct Hn as [Hn | Hn]; [left | right]; intros Hin; apply Hn;
          apply elem_of_cons in Hin as [-> | Hin];
          try (left; fail); right; apply elem_of_app; right; exact Hin.
      * intros ->. contradiction.
    + apply not_elem_of_cons. split; [congruence | exact Hancs].
Qed.

(** *** [appendChild] *)

Lemma appendChild_absent (parent : node_id) (child n : node) :
  parent ∉ ids n -> appendChild parent child n = n.
Proof.
  induction n as [s | j name h kids IH] using node_nested_ind; intros Hp; simpl.
  - reflexivity.
  - simpl in Hp. apply not_elem_of_cons in Hp as [Hne Hp].
    destruct (Nat.eqb_spec parent j) as [-> | _]; [contradiction |].
    f_equal. induction IH as [| k ks Hk _ IHks]; [reflexivity |].
    simpl in *. apply not_elem_of_app in Hp as [Hp1 Hp2].
    rewrite (Hk Hp1), (IHks Hp2). reflexivity.
Qed.

Lemma ids_appendChild (parent : node_id) (child n : node) :
  parent ∈ ids n -> NoDup (ids n) ->
  ids (appendChild parent child n) ≡ₚ ids n ++ ids child.
Proof.
  induction n as [s | j name h kids IH] using node_nested_ind; intros Hp Hnd; simpl.
  - inversion Hp.
  - destruct (Nat.eqb_spec parent j) as [-> | Hne]; simpl.
    + rewrite List.map_app, concat_app. simpl. rewrite app_nil_r. reflexivity.
    + simpl in Hp, Hnd. apply elem_of_cons in Hp as [-> | Hp]; [contradiction |].
      apply NoDup_cons in Hnd as [_ Hnd]. constructor.
      induction IH as [| k ks Hk _ IHks]; [inversion Hp |].
      simpl in *. apply NoDup_app in Hnd as (Hnd1 & Hdisj & Hnd2).
      destruct (decide (parent ∈ ids k)) as [Hin | Hout].
      * assert (Hks : List.map (appendChild parent child) ks = ks).
        { specialize (Hdisj _ Hin). clear -Hdisj.
          induction ks as [| k' ks' IH']; [reflexivity |].
          simpl in *. apply not_elem_of_app in Hdisj as [H1 H2].
          rewrite (appendChild_absent _ _ _ H1), (IH' H2). reflexivity. }
        rewrite Hks, (Hk Hin Hnd1), <- !app_assoc.
        apply Permutation_app_head, Permutation_app_comm.
      * rewrite (appendChild_absent _ _ _ Hout).
        apply elem_of_app in Hp as [Hp | Hp]; [contradiction |].
        rewrite (IHks Hp Hnd2), app_assoc. reflexivity.
Qed.

(** *** Propagation paths *)

Lemma event_path_ids (t : node_id) (k : node) (p : list node) :
  event_path t k = Some p -> t ∈ ids k.
Proof.
  intros Hp. destruct (decide (t ∈ ids k)) as [H | H]; [exact H | exfalso].
  apply find_element_None in H. pose proof (event_path_find t k) as Ha.
  unfold path_agrees in Ha. rewrite H in Ha. congruence.
Qed.

Lemma first_some_event_path (t : node_id) (kids : list node) (k : node) (p : list node) :
  NoDup (concat (List.map ids kids)) ->
  k ∈ kids -> event_path t k = Some p ->
  first_some (event_path t) kids = Some p.
Proof.
  intros Hnd Hk Hp. induction kids as [| k0 kids IH]; [inversion Hk |].
  cbn [List.map concat] in Hnd. apply NoDup_app in Hnd as (_ & Hdisj & Hnd).
  cbn [first_some]. destruct (event_path t k0) as [p0 |] eqn:Hp0.
  - apply elem_of_cons in Hk as [-> | Hk]; [congruence |]. exfalso.
    apply (Hdisj t (event_path_ids _ _ _ Hp0)).
    apply elem_of_concat_map. exists k. split; [exact Hk | exact (event_path_ids _ _ _ Hp)].
  - apply elem_of_cons in Hk as [-> | Hk]; [congruence |]. exact (IH Hnd Hk).
Qed.

Lemma NoDup_kid (kids : list node) (k : node) :
  NoDup (concat (List.map ids kids)) -> k ∈ kids -> NoDup (ids k).
Proof.
  intros Hnd Hk. induction kids as [| k0 kids IH]; [inversion Hk |].
  cbn [List.map concat] in Hnd. apply NoDup_app in Hnd as (H0 & _ & Hnd).
  apply elem_of_cons in Hk as [-> | Hk]; [exact H0 | exact (IH Hnd Hk)].
Qed.

Lemma event_path_absent (t : node_id) (n : node) :
  t ∉ ids n -> event_path t n = None.
Proof.
  intros H. destruct (event_path t n) as [p |] eqn:Hp; [| reflexivity].
  exfalso. exact (H (event_path_ids _ _ _ Hp)).
Qed.

(** The elements of a propagation path are elements of the tree. *)
Lemma event_path_elem_ids (t : node_id) (n : node) (path : list node) :
  event_path t n = Some path ->
  forall j name h kids, Element j name h kids ∈ path -> j ∈ ids n.
Proof.
  revert path. induction n as [s | i nm hi kids0 IH] using node_nested_ind;
    intros path Hp j name h kids Hin; cbn [event_path] in Hp; [discriminate |].
  cbn [ids]. destruct (Nat.eqb t i).
  - injection Hp as <-. apply list_elem_of_singleton in Hin.
    injection Hin as -> _ _ _. left.
  - destruct (first_some (event_path t) kids0) as [p' |] eqn:Hf; [| discriminate].
    injection Hp as <-. apply elem_of_app in Hin as [Hin | Hin].
    + destruct (first_some_Some _ _ _ Hf) as (k & Hk & Hpk).
      rewrite Forall_forall in IH. right. apply elem_of_concat_map.
      exists k. split; [exact Hk |]. exact (IH k Hk p' Hpk j name h kids Hin).
    + apply list_elem_of_singleton in Hin. injection Hin as -> _ _ _. left.
Qed.

Lemma first_some_app_None {A B : Type} (f : A -> option B) (l l' : list A) :
  Forall (fun x => f x = None) l -> first_some f (l ++ l') = first_some f l'.
Proof.
  induction 1 as [| x l Hx _ IH]; [reflexivity |].
  cbn [app first_some]. rewrite Hx. exact IH.
Qed.

(** The path of an element of a subtree appended to [m]: its path
    inside the subtree, then the path of [m]. *)
Lemma event_path_appendChild (t m : node_id) (child doc : node) (pc : list node) :
  NoDup (ids doc) -> m ∈ ids doc -> t ∉ ids doc ->
  event_path t child = Some pc ->
  exists pm, event_path m (appendChild m child doc) = Some pm
             /\ event_path t (appendChild m child doc) = Some (pc ++ pm).
Proof.
  intros Hnd Hm Ht Hpc. revert Hnd Hm Ht.
  induction doc as [s | j name h kids IH] using node_nested_ind; intros Hnd Hm Ht.
  - inversion Hm.
  - cbn [ids] in Hnd, Hm, Ht. apply NoDup_cons in Hnd as [Hj Hnd].
    apply not_elem_of_cons in Ht as [Htj Ht].
    assert (Htj' : Nat.eqb t j = false) by (apply Nat.eqb_neq; exact Htj).
    cbn [appendChild]. destruct (Nat.eqb_spec m j) as [-> | Hne].
    + exists [Element j name h (kids ++ [child])]. cbn [event_path].
      rewrite Nat.eqb_refl, Htj'. split; [reflexivity |].
      rewrite first_some_app_None.
      * cbn [first_some]. rewrite Hpc. reflexivity.
      * apply Forall_forall. intros k Hk. apply event_path_absent.
        intros Hin. apply Ht. apply elem_of_concat_map. exists k. auto.
    + apply elem_of_cons in Hm as [-> | Hm]; [contradiction |].
      assert (Hkids : exists pm',
                 first_some (event_path m) (List.map (appendChild m child) kids) = Some pm'
                 /\ first_some (event_path t) (List.map (appendChild m child) kids)
                    = Some (pc ++ pm')).
      { clear Hj Htj Htj' Hne. induction IH as [| k ks Hk _ IHks]; [inversion Hm |].
        cbn [List.map concat] in *. apply NoDup_app in Hnd as (Hnd1 & Hdisj & Hnd2).
        apply not_elem_of_app in Ht as [Ht1 Ht2]. cbn [first_some].
        destruct (decide (m ∈ ids k)) as [Hin | Hout].
        - destruct (Hk Hnd1 Hin Ht1) as (pm & H1 & H2). rewrite H1, H2. eauto.
        - rewrite (appendChild_absent _ _ _ Hout).
          rewrite (event_path_absent _ _ Hout), (event_path_absent _ _ Ht1).
          apply elem_of_app in Hm as [Hm | Hm]; [contradiction |].
          exact (IHks Hnd2 Hm Ht2). }
      destruct Hkids as (pm' & H1 & H2).
      exists (pm' ++ [Element j name h (List.map (appendChild m child) kids)]).
      cbn [event_path]. apply Nat.eqb_neq in Hne. rewrite Hne, Htj', H1, H2.
      rewrite app_assoc. auto.
Qed.

End DomFacts.

(** ** Facts about the navigation snippet *)

Module NavFacts.
Import Dom DomFacts Nav.

(** Closes [i ∉ l] for a concrete list [l]. *)
Ltac not_in_list :=
  let H := fresh in
  intros H; apply list_elem_of_In in H; vm_compute in H; intuition discriminate.

Lemma extend_nil (p : page) : extend p [] = p.
Proof. destruct p. unfold extend. simpl. rewrite app_nil_r. reflexivity. Qed.

Lemma extend_extend (p : page) (a b : list effect) :
  extend (extend p a) b = extend p (a ++ b).
Proof. unfold extend. simpl. rewrite app_assoc. reflexivity. Qed.

(** *** Setup *)

Lemma existsb_same_listener_fresh (t : node_id) (ty : string) (cb : closure)
      (reg : list (node_id * listener)) :
  Forall (fun x => fn (l_callback (snd x)) < fn cb) reg ->
  existsb (same_listener t ty cb) reg = false.
Proof.
  induction 1 as [| x reg Hx _ IH]; simpl; [reflexivity |].
  rewrite IH, orb_false_r. unfold same_listener.
  apply andb_false_intro2. apply Nat.eqb_neq. lia.
Qed.

Lemma bind_link_fresh (p : page) (t : node_id) :
  Forall (fun x => fn (l_callback (snd x)) < next_fn p) (registry p) ->
  bind_link p t =
    {| document := document p;
       registry := registry p ++ [(t, click_listener (next_fn p) t)];
       next_fn := S (next_fn p); location := location p; log := log p |}.
Proof.
  intros H. unfold bind_link, new_function, addEventListener. simpl.
  rewrite existsb_same_listener_fresh; [reflexivity | exact H].
Qed.

Lemma new_entries_fn (f : nat) (links : list node_id) :
  Forall (fun x => f <= fn (l_callback (snd x)) < f + length links
                   /\ link (l_callback (snd x)) = fst x
                   /\ l_type (snd x) = "click"
                   /\ fst x ∈ links)
         (new_entries f links).
Proof.
  revert f. induction links as [| t links IH]; intros f; simpl; constructor.
  - simpl. repeat split; try lia. left.
  - eapply Forall_impl; [apply IH |]. simpl.
    intros x (H1 & H2 & H3 & H4). repeat split; try lia; try assumption.
    right. exact H4.
Qed.

Lemma length_new_entries (f : nat) (links : list node_id) :
  length (new_entries f links) = length links.
Proof. revert f. induction links; intros f; simpl; [| rewrite IHlinks]; reflexivity. Qed.

Lemma foldl_bind_link (links : list node_id) (p : page) :
  Forall (fun x => fn (l_callback (snd x)) < next_fn p) (registry p) ->
  foldl bind_link p links =
    {| document := document p;
       registry := registry p ++ new_entries (next_fn p) links;
       next_fn := next_fn p + length links;
       location := location p; log := log p |}.
Proof.
  revert p. induction links as [| t links IH]; intros p H; simpl.
  - destruct p; simpl. rewrite app_nil_r, Nat.add_0_r. reflexivity.
  - rewrite (bind_link_fresh p t H), IH; simpl.
    + rewrite <- app_assoc. simpl. f_equal. lia.
    + apply Forall_app. split.
      * eapply Forall_impl; [exact H |]. simpl. intros; lia.
      * repeat constructor.
Qed.

Lemma well_formed_fresh (p : page) :
  well_formed p ->
  Forall (fun x => fn (l_callback (snd x)) < next_fn p) (registry p).
Proof. intros [_ H]. eapply Forall_impl; [exact H |]. intros x (Hx & _). exact Hx. Qed.

(** One run of setup appends one click listener per matched
    element, in tree order, and changes nothing else. *)
Lemma setup_registry (p : page) :
  well_formed p ->
  setup p =
    {| document := document p;
       registry := registry p
                     ++ new_entries (next_fn p) (querySelectorAll nav_a (document p));
       next_fn := next_fn p + length (querySelectorAll nav_a (document p));
       location := location p; log := log p |}.
Proof. intros H. unfold setup. apply foldl_bind_link, well_formed_fresh, H. Qed.

Lemma setup_well_formed (p : page) : well_formed p -> well_formed (setup p).
Proof.
  intros H. rewrite (setup_registry p H). destruct H as [Hnd Hreg].
  split; [exact Hnd |]. simpl. apply Forall_app. split.
  - eapply Forall_impl; [exact Hreg |]. unfold entry_ok. simpl.
    intros x (H1 & H2 & H3). repeat split; [lia | assumption | assumption].
  - eapply Forall_impl; [apply new_entries_fn |]. unfold entry_ok. simpl.
    intros x (H1 & H2 & _ & H4). repeat split; [lia | assumption |].
    apply (querySelectorAll_ids _ _ _ H4).
Qed.

(** *** Listener lists *)

Lemma listeners_of_app (t : node_id) (ty : string) (a b : list (node_id * listener)) :
  listeners_of t ty (a ++ b) = listeners_of t ty a ++ listeners_of t ty b.
Proof.
  induction a as [| [t' l] a IH]; simpl; [reflexivity |].
  destruct (Nat.eqb t' t && String.eqb (l_type l) ty); rewrite IH; reflexivity.
Qed.

Lemma listeners_of_new_absent (t : node_id) (f : nat) (links : list node_id) :
  t ∉ links -> listeners_of t "click" (new_entries f links) = [].
Proof.
  revert f. induction links as [| t' links IH]; intros f H; simpl; [reflexivity |].
  apply not_elem_of_cons in H as [Hne Hin].
  destruct (Nat.eqb_spec t' t) as [-> | _]; [contradiction |]. simpl. apply IH, Hin.
Qed.

Lemma listeners_of_new_present (t : node_id) (f : nat) (links : list node_id) :
  NoDup links -> t ∈ links ->
  exists g, listeners_of t "click" (new_entries f links) = [click_listener g t].
Proof.
  revert f. induction links as [| t' links IH]; intros f Hnd Hin; [inversion Hin |].
  apply NoDup_cons in Hnd as [Hnotin Hnd]. simpl.
  destruct (Nat.eqb_spec t' t) as [-> | Hne]; simpl.
  - exists f. rewrite (listeners_of_new_absent _ _ _ Hnotin). reflexivity.
  - apply elem_of_cons in Hin as [-> | Hin]; [contradiction |]. apply IH; assumption.
Qed.

Lemma listeners_of_Forall (P : node_id * listener -> Prop) (t : node_id) (ty : string)
      (reg : list (node_id * listener)) :
  Forall P reg -> Forall (fun l => P (t, l)) (listeners_of t ty reg).
Proof.
  induction 1 as [| [t' l] reg Hx _ IH]; simpl; [constructor |].
  destruct (Nat.eqb_spec t' t) as [-> | _]; simpl; [| exact IH].
  destruct (String.eqb (l_type l) ty); [constructor; assumption | exact IH].
Qed.

(** *** The listener and the dispatch *)

Lemma handler_result (lnk : node_id) (e : event) (p : page) (txt : string) :
  textContent_of (document p) lnk = Some txt ->
  handler lnk e p =
    Some (JS.VUndefined, {| defaultPrevented := true |},
          extend p [PreventDefault; Alert ("You clicked on " +:+ txt)]).
Proof.
  intros H. unfold handler, preventDefault, alert, emit, extend. simpl.
  rewrite H. rewrite <- app_assoc. reflexivity.
Qed.

Lemma run_listeners_result (ls : list listener) (e : event) (p : page) :
  Forall (resolvable (document p)) ls ->
  run_listeners ls e p =
    Some ({| defaultPrevented := defaultPrevented e || negb (bool_decide (ls = [])) |},
          extend p (concat (List.map (handler_effects (document p)) ls))).
Proof.
  revert e p. induction ls as [| l ls IH]; intros e p H; simpl.
  - rewrite extend_nil, orb_false_r. destruct e. reflexivity.
  - inversion H as [| ? ? Hl Hls]; subst.
    destruct (textContent_of_is_Some _ _ Hl) as (el & _ & Ht).
    rewrite (handler_result _ e p _ Ht).
    rewrite IH; [| exact Hls]. simpl.
    rewrite extend_extend, orb_true_r. unfold handler_effects at 2. rewrite Ht.
    reflexivity.
Qed.

Lemma propagate_result (path : list node) (e : event) (p : page) :
  Forall (fun x => resolvable (document p) (snd x)) (registry p) ->
  propagate path e p =
    Some ({| defaultPrevented :=
               defaultPrevented e || negb (bool_decide (invoked path (registry p) = [])) |},
          extend p (concat (List.map (handler_effects (document p))
                                     (invoked path (registry p))))).
Proof.
  revert e p. induction path as [| n path IH]; intros e p H.
  - simpl. rewrite extend_nil, orb_false_r. destruct e. reflexivity.
  - destruct n as [s | t name h kids].
    + simpl. rewrite IH; [reflexivity | exact H].
    + cbn [propagate]. rewrite run_listeners_result.
      2:{ apply (listeners_of_Forall (fun x => resolvable (document p) (snd x))), H. }
      rewrite IH; [| exact H]. cbn [document registry extend defaultPrevented].
      rewrite extend_extend. unfold invoked. cbn [List.map concat].
      rewrite List.map_app, concat_app. f_equal. f_equal. f_equal.
      rewrite <- orb_assoc. f_equal.
      destruct (listeners_of t "click" (registry p)); reflexivity.
Qed.

Lemma well_formed_resolvable (p : page) :
  well_formed p -> Forall (fun x => resolvable (document p) (snd x)) (registry p).
Proof.
  intros [_ H]. eapply Forall_impl; [exact H |].
  intros x (_ & H2 & H3). unfold resolvable. rewrite H2. exact H3.
Qed.

(** A click on an element of the document always completes; it
    leaves the document and the listeners as they are. *)
Lemma click_result (t : node_id) (p : page) (path : list node) :
  well_formed p ->
  event_path t (document p) = Some path ->
  let p1 := extend p (concat (List.map (handler_effects (document p)) (triggered t p))) in
  click t p =
    Some (if negb (bool_decide (triggered t p = [])) then p1
          else match activation_target path with
               | Some url => navigate url p1
               | None => p1
               end).
Proof.
  intros Hwf Hpath. unfold click, triggered. rewrite Hpath.
  rewrite propagate_result; [| apply well_formed_resolvable, Hwf].
  cbn [defaultPrevented orb].
  destruct (negb (bool_decide (invoked path (registry p) = []))); [reflexivity |].
  destruct (activation_target path); reflexivity.
Qed.

Lemma event_path_is_Some (t : node_id) (doc : node) :
  t ∈ ids doc ->
  exists name h kids rest, event_path t doc = Some (Element t name h kids :: rest)
                           /\ find_element t doc = Some (Element t name h kids).
Proof.
  intros Hin. destruct (find_element_is_Some _ _ Hin) as (el & Hf & Hk).
  pose proof (event_path_find t doc) as Hp. unfold path_agrees in Hp. rewrite Hf in Hp.
  destruct Hp as [rest Hp]. destruct el as [s | j name h kids]; [discriminate |].
  simpl in Hk. injection Hk as ->. exists name, h, kids, rest. auto.
Qed.

(** *** Steps after setup *)

Lemma fresh_for_spec (child doc : node) :
  fresh_for child doc = true ->
  NoDup (ids child) /\ forall i, i ∈ ids child -> i ∉ ids doc.
Proof.
  unfold fresh_for. intros H. apply andb_prop in H as [H1 H2].
  apply bool_decide_eq_true in H2. split; [exact H2 |].
  intros i Hi Hd. rewrite forallb_forall in H1.
  apply list_elem_of_In in Hi. specialize (H1 i Hi).
  apply negb_true_iff in H1.
  assert (existsb (Nat.eqb i) (ids doc) = true); [| congruence].
  apply existsb_exists. exists i. split; [apply list_elem_of_In, Hd | apply Nat.eqb_refl].
Qed.

Lemma existsb_eqb_elem_of (i : node_id) (l : list node_id) :
  existsb (Nat.eqb i) l = true -> i ∈ l.
Proof.
  intros H. apply existsb_exists in H as (j & Hj & Heq).
  apply Nat.eqb_eq in Heq. subst j. apply list_elem_of_In, Hj.
Qed.

Lemma step_frame (a : action) (p p' : page) :
  well_formed p -> step a p = Some p' ->
  well_formed p'
  /\ registry p' = registry p
  /\ next_fn p' = next_fn p
  /\ (forall i, i ∈ ids (document p) -> i ∈ ids (document p')).
Proof.
  intros Hwf Hstep. destruct a as [t | parent child]; simpl in Hstep.
  - destruct (event_path t (document p)) as [path |] eqn:Hpath.
    2:{ unfold click in Hstep. rewrite Hpath in Hstep. discriminate. }
    rewrite (click_result t p path Hwf Hpath) in Hstep. simpl in Hstep.
    assert (Hdoc : document p' = document p /\ registry p' = registry p
                   /\ next_fn p' = next_fn p).
    { injection Hstep as <-.
      destruct (negb _); [auto |]. destruct (activation_target path); auto. }
    destruct Hdoc as (Hd & Hr & Hn). unfold well_formed, entry_ok.
    rewrite Hd, Hr, Hn. auto.
  - destruct (existsb (Nat.eqb parent) (ids (document p))) eqn:Hpar; [| discriminate].
    destruct (fresh_for child (document p)) eqn:Hfresh; [| discriminate].
    simpl in Hstep. injection Hstep as <-. simpl.
    apply existsb_eqb_elem_of in Hpar.
    apply fresh_for_spec in Hfresh as [Hnd Hdisj].
    destruct Hwf as [Hdoc Hreg].
    pose proof (ids_appendChild parent child (document p) Hpar Hdoc) as Hperm.
    assert (Hmono : forall i, i ∈ ids (document p) ->
                              i ∈ ids (appendChild parent child (document p))).
    { intros i Hi. rewrite Hperm. apply elem_of_app. left. exact Hi. }
    repeat split; try reflexivity; [| | exact Hmono].
    + simpl. rewrite Hperm. apply NoDup_app. repeat split; [exact Hdoc | | exact Hnd].
      intros i Hi Hc. exact (Hdisj i Hc Hi).
    + simpl. eapply Forall_impl; [exact Hreg |]. unfold entry_ok. simpl.
      intros x (H1 & H2 & H3). auto.
Qed.

Lemma run_frame (acts : list action) (p p' : page) :
  well_formed p -> run acts p = Some p' ->
  well_formed p'
  /\ registry p' = registry p
  /\ next_fn p' = next_fn p
  /\ (forall i, i ∈ ids (document p) -> i ∈ ids (document p')).
Proof.
  revert p. induction acts as [| a acts IH]; intros p Hwf Hrun; simpl in Hrun.
  - injection Hrun as <-. auto.
  - destruct (step a p) as [p1 |] eqn:Hstep; [| discriminate].
    destruct (step_frame a p p1 Hwf Hstep) as (Hwf1 & Hr1 & Hn1 & Hi1).
    destruct (IH p1 Hwf1 Hrun) as (Hwf' & Hr' & Hn' & Hi').
    split; [exact Hwf' |]. split; [congruence |]. split; [congruence | auto].
Qed.

Lemma load_well_formed (doc : node) (url : string) :
  NoDup (ids doc) -> well_formed (load doc url).
Proof. intros H. split; [exact H | constructor]. Qed.

Lemma listeners_of_absent (t : node_id) (ty : string)
      (reg : list (node_id * listener)) :
  Forall (fun x => fst x <> t) reg -> listeners_of t ty reg = [].
Proof.
  induction 1 as [| [t' l] reg Hx _ IH]; simpl; [reflexivity |].
  simpl in Hx. destruct (Nat.eqb_spec t' t) as [-> | _]; [contradiction | exact IH].
Qed.

(** After setup every matched element carries a listener that closes
    over that very element. *)
Lemma setup_listener (p0 : page) (t : node_id) :
  well_formed p0 ->
  t ∈ querySelectorAll nav_a (document p0) ->
  exists l ls, listeners_of t "click" (registry (setup p0)) = l :: ls
               /\ link (l_callback l) = t.
Proof.
  intros Hwf Hin. pose proof (setup_well_formed p0 Hwf) as [_ Hreg].
  rewrite (setup_registry p0 Hwf) in *. cbn [registry] in *.
  destruct (listeners_of_new_present t (next_fn p0) _
              (querySelectorAll_NoDup nav_a _ (proj1 Hwf)) Hin) as [g Hg].
  pose proof (listeners_of_Forall _ t "click" _ Hreg) as Hall.
  rewrite listeners_of_app, Hg in *.
  destruct (listeners_of t "click" (registry p0)) as [| l ls]; simpl in *.
  - exists (click_listener g t), []. auto.
  - exists l, (ls ++ [click_listener g t]). split; [reflexivity |].
    inversion Hall as [| ? ? (_ & Hl & _) _]; subst. exact Hl.
Qed.

Lemma handler_effects_quiet (doc : node) (ls : list listener) :
  Forall (fun x => is_navigation x = false)
         (concat (List.map (handler_effects doc) ls)).
Proof.
  induction ls as [| l ls IH]; simpl; [constructor |].
  apply Forall_app. split; [| exact IH]. unfold handler_effects.
  destruct (textContent_of doc (link (l_callback l))); repeat constructor.
Qed.

(** A click on an element that carries a click listener is not
    followed: the location stays, and only listeners were heard. *)
Lemma click_prevented (t : node_id) (p : page) :
  well_formed p ->
  t ∈ ids (document p) ->
  listeners_of t "click" (registry p) <> [] ->
  exists effs, click t p = Some (extend p effs)
               /\ Forall (fun x => is_navigation x = false) effs.
Proof.
  intros Hwf Hin Hls.
  destruct (event_path_is_Some t _ Hin) as (name & h & kids & rest & Hpath & _).
  rewrite (click_result t p _ Hwf Hpath). cbn zeta.
  assert (Htr : triggered t p <> []).
  { unfold triggered. rewrite Hpath. unfold invoked. cbn [List.map concat].
    destruct (listeners_of t "click" (registry p)); [contradiction | discriminate]. }
  rewrite bool_decide_eq_false_2 by exact Htr. cbn [negb].
  eexists. split; [reflexivity | apply handler_effects_quiet].
Qed.

Lemma run_quiet (acts : list action) (p p' : page) :
  well_formed p ->
  Forall (targets_listened (registry p)) acts ->
  run acts p = Some p' ->
  location p' = location p
  /\ exists effs, log p' = log p ++ effs
                  /\ Forall (fun x => is_navigation x = false) effs.
Proof.
  revert p. induction acts as [| a acts IH]; intros p Hwf Hall Hrun; simpl in Hrun.
  - injection Hrun as <-. split; [reflexivity |]. exists [].
    rewrite app_nil_r. split; [reflexivity | constructor].
  - destruct (step a p) as [p1 |] eqn:Hstep; [| discriminate].
    inversion Hall as [| ? ? Ha Hacts]; subst.
    destruct (step_frame a p p1 Hwf Hstep) as (Hwf1 & Hr1 & _ & _).
    rewrite <- Hr1 in Hacts.
    destruct (IH p1 Hwf1 Hacts Hrun) as (Hloc & effs & Hlog & Hq).
    assert (H1 : location p1 = location p
                 /\ exists effs1, log p1 = log p ++ effs1
                                  /\ Forall (fun x => is_navigation x = false) effs1).
    { destruct a as [t | parent child]; simpl in Hstep, Ha.
      - assert (Hin : t ∈ ids (document p)).
        { destruct (find_element t (document p)) eqn:Hf.
          - destruct (decide (t ∈ ids (document p))) as [H | H]; [exact H |].
            apply find_element_None in H. congruence.
          - pose proof (event_path_find t (document p)) as Hp.
            unfold path_agrees in Hp. rewrite Hf in Hp.
            unfold click in Hstep. rewrite Hp in Hstep. discriminate. }
        destruct (click_prevented t p Hwf Hin Ha) as (effs1 & Hc & Hq1).
        rewrite Hc in Hstep. injection Hstep as <-. split; [reflexivity |].
        exists effs1. auto.
      - destruct (_ && _); [| discriminate]. injection Hstep as <-. simpl.
        split; [reflexivity |]. exists []. rewrite app_nil_r.
        split; [reflexivity | constructor]. }
    destruct H1 as (Hloc1 & effs1 & Hlog1 & Hq1).
    split; [congruence |]. exists (effs1 ++ effs).
    rewrite Hlog, Hlog1, app_assoc. split; [reflexivity |].
    apply Forall_app. auto.
Qed.

Lemma clicks_complete (ts : list node_id) (p : page) :
  well_formed p ->
  Forall (fun t => t ∈ ids (document p) /\ listeners_of t "click" (registry p) <> []) ts ->
  exists p', run (List.map Click ts) p = Some p' /\ document p' = document p.
Proof.
  revert p. induction ts as [| t ts IH]; intros p Hwf Hall; simpl.
  - exists p. auto.
  - inversion Hall as [| ? ? [Hin Hls] Hts]; subst.
    destruct (click_prevented t p Hwf Hin Hls) as (effs & Hc & _).
    rewrite Hc.
    assert (Hwf1 : well_formed (extend p effs)) by exact Hwf.
    destruct (IH (extend p effs) Hwf1 Hts) as (p' & Hrun & Hdoc).
    exists p'. auto.
Qed.

Lemma invoked_none (path : list node) (reg : list (node_id * listener)) :
  (forall j name h kids, Element j name h kids ∈ path -> listeners_of j "click" reg = []) ->
  invoked path reg = [].
Proof.
  intros H. unfold invoked. induction path as [| n path IH]; [reflexivity |].
  cbn [List.map concat]. rewrite IH.
  - rewrite app_nil_r. destruct n as [s | j name h kids]; [reflexivity |].
    apply (H j name h kids). left.
  - intros j name h kids Hj. apply (H j name h kids). right. exact Hj.
Qed.

Lemma invoked_app (a b : list node) (reg : list (node_id * listener)) :
  invoked (a ++ b) reg = invoked a reg ++ invoked b reg.
Proof. unfold invoked. rewrite List.map_app, concat_app. reflexivity. Qed.

(** After setup on a freshly loaded page the matched elements carry
    one listener each, and no other element carries one. *)
Lemma listeners_of_fresh (doc : node) (url : string) (t : node_id) :
  NoDup (ids doc) ->
  (t ∈ querySelectorAll nav_a doc ->
   exists g, listeners_of t "click" (registry (setup (load doc url)))
             = [click_listener g t])
  /\ (t ∉ querySelectorAll nav_a doc ->
      listeners_of t "click" (registry (setup (load doc url))) = []).
Proof.
  intros Hnd. rewrite (setup_registry _ (load_well_formed doc url Hnd)).
  cbn [registry load document next_fn app]. split.
  - intros Ht. apply listeners_of_new_present; [| exact Ht].
    apply querySelectorAll_NoDup, Hnd.
  - intros Ht. apply listeners_of_new_absent, Ht.
Qed.

(** [click_result] for a page of which only the links of the
    listeners are known to be elements of the document. *)
Lemma click_resolvable (t : node_id) (p : page) (path : list node) :
  Forall (fun x => resolvable (document p) (snd x)) (registry p) ->
  event_path t (document p) = Some path ->
  let p1 := extend p (concat (List.map (handler_effects (document p)) (triggered t p))) in
  click t p =
    Some (if negb (bool_decide (triggered t p = [])) then p1
          else match activation_target path with
               | Some url => navigate url p1
               | None => p1
               end).
Proof.
  intros Hres Hpath. unfold click, triggered. rewrite Hpath.
  rewrite propagate_result; [| exact Hres].
  cbn [defaultPrevented orb].
  destruct (negb (bool_decide (invoked path (registry p) = []))); [reflexivity |].
  destruct (activation_target path); reflexivity.
Qed.

(** A click on a matched anchor that lies in no other matched anchor,
    in a page reached after setup or in one with the same document and
    listeners. *)
Lemma click_single_alert (doc : node) (url : string) (acts : list action) (p s : page)
      (t : node_id) (el : node) (rest : list node) :
  NoDup (ids doc) ->
  run acts (setup (load doc url)) = Some p ->
  t ∈ querySelectorAll nav_a doc ->
  event_path t (document p) = Some (el :: rest) ->
  (forall j name h kids,
      Element j name h kids ∈ rest -> j ∉ querySelectorAll nav_a doc) ->
  document s = document p -> registry s = registry p ->
  click t s
  = Some (extend s [PreventDefault; Alert ("You clicked on " +:+ textContent el)]).
Proof.
  intros Hnd Hrun Ht Hpath Hout Hdoc Hreg.
  pose proof (load_well_formed doc url Hnd) as Hwf0.
  destruct (run_frame acts _ p (setup_well_formed _ Hwf0) Hrun) as (Hwfp & Hregp & _ & _).
  assert (Hres : Forall (fun x => resolvable (document s) (snd x)) (registry s)).
  { rewrite Hdoc, Hreg. apply well_formed_resolvable, Hwfp. }
  assert (Hpath' : event_path t (document s) = Some (el :: rest))
    by (rewrite Hdoc; exact Hpath).
  destruct (event_path_is_Some t (document p) (event_path_ids _ _ _ Hpath))
    as (name & h & kids & rest' & Hp & Hfind).
  rewrite Hpath in Hp. injection Hp as -> ->.
  destruct (proj1 (listeners_of_fresh doc url t Hnd) Ht) as [g Hg].
  rewrite (click_resolvable t s _ Hres Hpath'). cbn zeta.
  assert (Htr : triggered t s = [click_listener g t]).
  { unfold triggered. rewrite Hpath'. unfold invoked. cbn [List.map concat].
    rewrite Hreg, Hregp, Hg. fold (invoked rest' (registry (setup (load doc url)))).
    rewrite invoked_none; [reflexivity |].
    intros j name' h' kids' Hj.
    apply (proj2 (listeners_of_fresh doc url j Hnd)), (Hout j name' h' kids' Hj). }
  rewrite Htr. rewrite bool_decide_eq_false_2 by discriminate. cbn [negb].
  cbn [List.map concat]. unfold handler_effects. cbn [click_listener l_callback link].
  unfold textContent_of. rewrite Hdoc, Hfind. rewrite app_nil_r. reflexivity.
Qed.

(** A click whose path reaches an element with a listener, past
    elements without one, runs that listener first. *)
Lemma click_reaches_listener (p : page) (t m : node_id) (pre post : list node)
      (el : node) (l : listener) (ls : list listener) :
  well_formed p ->
  event_path t (document p) = Some (pre ++ el :: post) ->
  node_key el = Some m ->
  find_element m (document p) = Some el ->
  invoked pre (registry p) = [] ->
  listeners_of m "click" (registry p) = l :: ls ->
  link (l_callback l) = m ->
  exists ls' p' rest,
    triggered t p = l :: ls'
    /\ click t p = Some p'
    /\ log p' = log p ++ [PreventDefault;
                          Alert ("You clicked on " +:+ textContent el)] ++ rest.
Proof.
  intros Hwf Hpath Hkey Hfind Hpre Hls Hlink.
  assert (Htr : triggered t p = l :: ls ++ invoked post (registry p)).
  { unfold triggered. rewrite Hpath, invoked_app, Hpre. cbn [app].
    destruct el as [x | j name h kids]; [discriminate |].
    cbn [node_key] in Hkey. injection Hkey as ->.
    unfold invoked at 1. cbn [List.map concat]. rewrite Hls. reflexivity. }
  rewrite (click_result t p _ Hwf Hpath). cbn zeta. rewrite Htr.
  rewrite bool_decide_eq_false_2 by discriminate. cbn [negb].
  do 3 eexists. split; [reflexivity |]. split; [reflexivity |].
  cbn [List.map concat extend log]. unfold handler_effects at 1.
  unfold textContent_of. rewrite Hlink, Hfind. reflexivity.
Qed.

(** *** The statements about basic.js *)

(** C1.  Take any page this program can be in, run setup, and let
    any clicks and insertions follow.  A click on an anchor that the
    selector matched at setup then completes, and the first thing it
    shows is an alert whose message is "You clicked on " followed by
    the text content the anchor has at that moment.  (For an anchor
    whose text is "Home" this is "You clicked on Home", see the
    witness.) *)
Theorem click_alerts_link_text (p0 p : page) (acts : list action) (t : node_id) :
  well_formed p0 ->
  t ∈ querySelectorAll nav_a (document p0) ->
  run acts (setup p0) = Some p ->
  exists el p' rest,
    find_element t (document p) = Some el
    /\ click t p = Some p'
    /\ log p' = log p ++ [PreventDefault;
                          Alert ("You clicked on " +:+ textContent el)] ++ rest.
Proof.
  intros Hwf Hin Hrun.
  destruct (run_frame acts _ p (setup_well_formed p0 Hwf) Hrun)
    as (Hwfp & Hreg & _ & Hmono).
  assert (Hdoc : t ∈ ids (document p)).
  { apply Hmono. rewrite (setup_registry p0 Hwf). simpl.
    exact (querySelectorAll_ids _ _ _ Hin). }
  destruct (event_path_is_Some t _ Hdoc) as (name & h & kids & rest & Hpath & Hfind).
  destruct (setup_listener p0 t Hwf Hin) as (l & ls & Hls & Hlink).
  rewrite <- Hreg in Hls.
  exists (Element t name h kids).
  rewrite (click_result t p _ Hwfp Hpath). cbn zeta.
  assert (Htr : triggered t p = l :: ls ++ invoked rest (registry p)).
  { unfold triggered. rewrite Hpath. unfold invoked at 1. cbn [List.map concat].
    rewrite Hls. reflexivity. }
  rewrite Htr. rewrite bool_decide_eq_false_2 by discriminate. cbn [negb].
  eexists. eexists. split; [exact Hfind |]. split; [reflexivity |].
  cbn [List.map concat extend log]. unfold handler_effects at 1.
  unfold textContent_of. rewrite Hlink, Hfind. reflexivity.
Qed.

Lemma sample_NoDup : NoDup (ids sample).
Proof. apply (bool_decide_unpack (NoDup (ids sample))). vm_compute. exact I. Qed.

Lemma click_alerts_link_text_witness :
  exists el p' rest,
    find_element 2 (document (setup (load sample "index.html"))) = Some el
    /\ click 2 (setup (load sample "index.html")) = Some p'
    /\ log p' = log (setup (load sample "index.html"))
                   ++ [PreventDefault; Alert ("You clicked on " +:+ textContent el)] ++ rest.
Proof.
  apply (click_alerts_link_text (load sample "index.html") _ [] 2).
  - apply load_well_formed, sample_NoDup.
  - vm_compute. apply list_elem_of_In. simpl. auto.
  - reflexivity.
Defined.

Example click_home :
  option_map log (click 2 (setup (load sample "index.html")))
  = Some [PreventDefault; Alert "You clicked on Home"].
Proof. reflexivity. Qed.

(** C2.  One run of setup on a page with N matched anchors registers
    exactly N listeners, all for "click": exactly one of them on each
    matched anchor, none anywhere else.  Listeners registered before
    stay as they are. *)
Theorem setup_registers_one_listener_per_anchor (p : page) :
  well_formed p ->
  exists added,
    registry (setup p) = registry p ++ added
    /\ length added = length (querySelectorAll nav_a (document p))
    /\ Forall (fun x => l_type (snd x) = "click") added
    /\ (forall t, t ∈ querySelectorAll nav_a (document p) ->
                  exists g, listeners_of t "click" added = [click_listener g t])
    /\ (forall t, t ∉ querySelectorAll nav_a (document p) ->
                  listeners_of t "click" added = []).
Proof.
  intros Hwf.
  exists (new_entries (next_fn p) (querySelectorAll nav_a (document p))).
  rewrite (setup_registry p Hwf). cbn [registry]. split; [reflexivity |].
  split; [apply length_new_entries |]. split.
  - eapply Forall_impl; [apply new_entries_fn |]. intros x (_ & _ & H & _). exact H.
  - split.
    + intros t Ht. apply listeners_of_new_present; [| exact Ht].
      apply querySelectorAll_NoDup, Hwf.
    + intros t Ht. apply listeners_of_new_absent, Ht.
Qed.

Lemma setup_registers_one_listener_per_anchor_witness :
  exists added,
    registry (setup (load sample "index.html")) = [] ++ added
    /\ length added = 2
    /\ Forall (fun x => l_type (snd x) = "click") added
    /\ (forall t, t ∈ [2; 3] -> exists g, listeners_of t "click" added = [click_listener g t])
    /\ (forall t, t ∉ [2; 3] -> listeners_of t "click" added = []).
Proof.
  apply (setup_registers_one_listener_per_anchor (load sample "index.html")).
  apply load_well_formed, sample_NoDup.
Defined.

(** C3.  After setup, clicks on matched anchors never change the
    location of the document, whatever insertions happen in between;
    a sequence of such clicks always completes; and the listener
    prevents the default action before it does anything else. *)
Theorem clicks_never_navigate (p0 : page) :
  well_formed p0 ->
  (forall acts p,
      Forall (fun a => match a with
                       | Click t => t ∈ querySelectorAll nav_a (document p0)
                       | AppendChild _ _ => True
                       end) acts ->
      run acts (setup p0) = Some p ->
      location p = location p0
      /\ exists effs, log p = log p0 ++ effs
                      /\ Forall (fun x => is_navigation x = false) effs)
  /\ (forall ts,
         Forall (fun t => t ∈ querySelectorAll nav_a (document p0)) ts ->
         exists p, run (List.map Click ts) (setup p0) = Some p)
  /\ (forall lnk e p v e' p',
         handler lnk e p = Some (v, e', p') ->
         defaultPrevented e' = true
         /\ exists rest, log p' = log p ++ [PreventDefault] ++ rest).
Proof.
  intros Hwf. pose proof (setup_well_formed p0 Hwf) as Hwfs.
  assert (Hls : forall t, t ∈ querySelectorAll nav_a (document p0) ->
                          listeners_of t "click" (registry (setup p0)) <> []).
  { intros t Ht. destruct (setup_listener p0 t Hwf Ht) as (l & ls & -> & _). discriminate. }
  split; [| split].
  - intros acts p Hall Hrun.
    destruct (run_quiet acts (setup p0) p Hwfs) as (Hloc & effs & Hlog & Hq).
    + eapply Forall_impl; [exact Hall |]. intros [t | parent child]; simpl; auto.
    + exact Hrun.
    + rewrite (setup_registry p0 Hwf) in Hloc, Hlog. simpl in Hloc, Hlog. eauto.
  - intros ts Hts.
    destruct (clicks_complete ts (setup p0) Hwfs) as (p & Hrun & _).
    + eapply Forall_impl; [exact Hts |]. simpl. intros t Ht. split; [| auto].
      rewrite (setup_registry p0 Hwf). simpl. exact (querySelectorAll_ids _ _ _ Ht).
    + exists p. exact Hrun.
  - intros lnk e p v e' p' H. unfold handler in H. simpl in H.
    destruct (textContent_of (document p) lnk) as [txt |]; [| discriminate].
    injection H as <- <- <-. split; [reflexivity |]. simpl.
    rewrite <- app_assoc. eexists. reflexivity.
Qed.

Lemma clicks_never_navigate_witness :
  (forall acts p,
      Forall (fun a => match a with
                       | Click t => t ∈ querySelectorAll nav_a sample
                       | AppendChild _ _ => True
                       end) acts ->
      run acts (setup (load sample "index.html")) = Some p ->
      location p = "index.html"
      /\ exists effs, log p = [] ++ effs
                      /\ Forall (fun x => is_navigation x = false) effs)
  /\ (forall ts,
         Forall (fun t => t ∈ querySelectorAll nav_a sample) ts ->
         exists p, run (List.map Click ts) (setup (load sample "index.html")) = Some p)
  /\ (forall lnk e p v e' p',
         handler lnk e p = Some (v, e', p') ->
         defaultPrevented e' = true
         /\ exists rest, log p' = log p ++ [PreventDefault] ++ rest).
Proof.
  apply (clicks_never_navigate (load sample "index.html")).
  apply load_well_formed, sample_NoDup.
Defined.

Example clicks_keep_location :
  option_map location (run [Click 2; Click 4; Click 3] (setup (load sample "index.html")))
  = Some "index.html".
Proof. reflexivity. Qed.




(** C5.  When the selector matches nothing, and in particular when
    the document has no [nav] element or no [a] element, setup
    returns the page exactly as it was: no listener is attached, and
    there is no other outcome. *)
Theorem setup_without_matches (p : page) :
  (querySelectorAll nav_a (document p) = [] -> setup p = p)
  /\ (("nav" ∉ localNames (document p)) \/ ("a" ∉ localNames (document p)) ->
      querySelectorAll nav_a (document p) = [] /\ setup p = p).
Proof.
  assert (H : querySelectorAll nav_a (document p) = [] -> setup p = p).
  { intros H. unfold setup. rewrite H. reflexivity. }
  split; [exact H |]. intros Hn.
  assert (Hq : querySelectorAll nav_a (document p) = []).
  { apply select_nav_a_nil; [| exact Hn]. intros Hin. inversion Hin. }
  split; [exact Hq | exact (H Hq)].
Qed.

Lemma setup_without_matches_witness :
  setup (load bare "index.html") = load bare "index.html"
  /\ querySelectorAll nav_a plain = []
  /\ setup (load plain "index.html") = load plain "index.html".
Proof.
  split.
  - apply (proj1 (setup_without_matches (load bare "index.html"))). reflexivity.
  - apply (proj2 (setup_without_matches (load plain "index.html"))). left.
    not_in_list.
Defined.

(** C6.  A run of the listener on an element of the document always
    completes, returns [undefined], marks its event as prevented and
    appends its two effects to the trace; the document, the
    listeners, the allocator and the location are left as they
    were. *)
Theorem handler_frame (lnk : node_id) (e : event) (p : page) :
  lnk ∈ ids (document p) ->
  exists txt,
    textContent_of (document p) lnk = Some txt
    /\ handler lnk e p =
         Some (JS.VUndefined,
               {| defaultPrevented := true |},
               {| document := document p; registry := registry p;
                  next_fn := next_fn p; location := location p;
                  log := log p ++ [PreventDefault; Alert ("You clicked on " +:+ txt)] |}).
Proof.
  intros Hin. destruct (textContent_of_is_Some _ _ Hin) as (el & _ & Ht).
  exists (textContent el). split; [exact Ht |].
  rewrite (handler_result lnk e p _ Ht). reflexivity.
Qed.

Lemma handler_frame_witness :
  exists txt,
    textContent_of sample 3 = Some txt
    /\ handler 3 {| defaultPrevented := false |} (load sample "index.html") =
         Some (JS.VUndefined,
               {| defaultPrevented := true |},
               {| document := sample; registry := []; next_fn := 0;
                  location := "index.html";
                  log := [] ++ [PreventDefault; Alert ("You clicked on " +:+ txt)] |}).
Proof.
  apply (handler_frame 3 {| defaultPrevented := false |} (load sample "index.html")).
  apply list_elem_of_In. vm_compute. auto 10.
Defined.

(** What one run of the listener shows depends on the text content of
    its link and on nothing else: two runs, on any two pages and
    events, for links with equal text content, return the same value,
    leave the same event state and append the same effects. *)
Lemma handler_deterministic (l1 l2 : node_id) (e1 e2 : event) (p1 p2 : page)
        (txt : string) :
  textContent_of (document p1) l1 = Some txt ->
  textContent_of (document p2) l2 = Some txt ->
  exists v e effs,
    handler l1 e1 p1 = Some (v, e, extend p1 effs)
    /\ handler l2 e2 p2 = Some (v, e, extend p2 effs).
Proof.
  intros H1 H2. do 3 eexists.
  rewrite (handler_result l1 e1 p1 _ H1), (handler_result l2 e2 p2 _ H2).
  split; reflexivity.
Qed.

(** Two anchors with the same text, in different documents. *)
Example handler_same_text :
  exists v e effs,
    handler 2 {| defaultPrevented := false |} (load sample "index.html")
      = Some (v, e, extend (load sample "index.html") effs)
    /\ handler 1 {| defaultPrevented := true |} (setup (load plain "other.html"))
      = Some (v, e, extend (setup (load plain "other.html")) effs).
Proof.
  apply (handler_deterministic 2 1 _ _ (load sample "index.html")
           (setup (load plain "other.html")) "Home"); reflexivity.
Qed.

Lemma nested_NoDup : NoDup (ids nested).
Proof. apply (bool_decide_unpack (NoDup (ids nested))). vm_compute. exact I. Qed.

(** C7, as stated, fails: two matched anchors with the same text
    content, one of them inside another matched anchor.  A click on
    the first shows one alert; a click on the inner one shows two,
    the second with the text of the anchor around it. *)
Lemma equal_text_different_alerts :
  textContent_of nested 2 = Some "Home"
  /\ textContent_of nested 4 = Some "Home"
  /\ querySelectorAll nav_a nested = [2; 3; 4]
  /\ option_map log (click 2 (setup (load nested "index.html")))
     = Some [PreventDefault; Alert "You clicked on Home"]
  /\ option_map log (click 4 (setup (load nested "index.html")))
     = Some [PreventDefault; Alert "You clicked on Home";
             PreventDefault; Alert "You clicked on Go Home"].
Proof.
  split; [reflexivity |]. split; [reflexivity |]. split; [reflexivity |].
  split; vm_compute; reflexivity.
Qed.

(** C7, amended.  Take two clicks, in the same page or in two pages
    reached after setup on freshly loaded documents by any clicks and
    insertions, on matched anchors that have equal text content and
    lie inside no other matched anchor.  Each click shows exactly one
    alert, "You clicked on " followed by that text, so the two
    messages are equal; and each click shows the same in every page
    that has the same document and listeners, whatever its location,
    its earlier trace and its other state are. *)
Theorem clicks_deterministic (doc1 doc2 : node) (url1 url2 : string)
        (acts1 acts2 : list action) (p1 p2 : page) (t1 t2 : node_id)
        (el1 el2 : node) (rest1 rest2 : list node) :
  NoDup (ids doc1) -> NoDup (ids doc2) ->
  run acts1 (setup (load doc1 url1)) = Some p1 ->
  run acts2 (setup (load doc2 url2)) = Some p2 ->
  t1 ∈ querySelectorAll nav_a doc1 -> t2 ∈ querySelectorAll nav_a doc2 ->
  event_path t1 (document p1) = Some (el1 :: rest1) ->
  event_path t2 (document p2) = Some (el2 :: rest2) ->
  (forall j name h kids,
      Element j name h kids ∈ rest1 -> j ∉ querySelectorAll nav_a doc1) ->
  (forall j name h kids,
      Element j name h kids ∈ rest2 -> j ∉ querySelectorAll nav_a doc2) ->
  textContent el1 = textContent el2 ->
  exists effs,
    effs = [PreventDefault; Alert ("You clicked on " +:+ textContent el1)]
    /\ click t1 p1 = Some (extend p1 effs)
    /\ click t2 p2 = Some (extend p2 effs)
    /\ (forall s, document s = document p1 -> registry s = registry p1 ->
                  click t1 s = Some (extend s effs))
    /\ (forall s, document s = document p2 -> registry s = registry p2 ->
                  click t2 s = Some (extend s effs)).
Proof.
  intros Hnd1 Hnd2 Hrun1 Hrun2 Ht1 Ht2 Hpath1 Hpath2 Hout1 Hout2 Htxt.
  eexists. split; [reflexivity |].
  pose proof (click_single_alert doc1 url1 acts1 p1) as H1.
  pose proof (click_single_alert doc2 url2 acts2 p2) as H2.
  split; [exact (H1 p1 t1 el1 rest1 Hnd1 Hrun1 Ht1 Hpath1 Hout1 eq_refl eq_refl) |].
  rewrite Htxt.
  split; [exact (H2 p2 t2 el2 rest2 Hnd2 Hrun2 Ht2 Hpath2 Hout2 eq_refl eq_refl) |].
  split.
  - intros s Hd Hr. rewrite <- Htxt.
    exact (H1 s t1 el1 rest1 Hnd1 Hrun1 Ht1 Hpath1 Hout1 Hd Hr).
  - intros s Hd Hr.
    exact (H2 s t2 el2 rest2 Hnd2 Hrun2 Ht2 Hpath2 Hout2 Hd Hr).
Qed.

(** The anchor "Home" of the example document, after an insertion and
    a click elsewhere, and the first anchor "Home" of the document
    with nested anchors. *)
Lemma clicks_deterministic_witness :
  exists p1,
    run [AppendChild 3 (Text "!"); Click 3] (setup (load sample "index.html")) = Some p1
    /\ exists effs,
         effs = [PreventDefault;
                 Alert ("You clicked on "
                          +:+ textContent (Element 2 "a" (Some "/") [Text "Home"]))]
         /\ click 2 p1 = Some (extend p1 effs)
         /\ click 2 (setup (load nested "other.html"))
            = Some (extend (setup (load nested "other.html")) effs)
         /\ (forall s, document s = document p1 -> registry s = registry p1 ->
                       click 2 s = Some (extend s effs))
         /\ (forall s, document s = document (setup (load nested "other.html")) ->
                       registry s = registry (setup (load nested "other.html")) ->
                       click 2 s = Some (extend s effs)).
Proof.
  eexists. split; [vm_compute; reflexivity |].
  eapply (clicks_deterministic sample nested "index.html" "other.html"
            [AppendChild 3 (Text "!"); Click 3] [] _ _ 2 2
            (Element 2 "a" (Some "/") [Text "Home"])
            (Element 2 "a" (Some "/") [Text "Home"])).
  - exact sample_NoDup.
  - exact nested_NoDup.
  - vm_compute. reflexivity.
  - reflexivity.
  - apply list_elem_of_In. vm_compute. auto.
  - apply list_elem_of_In. vm_compute. auto.
  - vm_compute. reflexivity.
  - vm_compute. reflexivity.
  - intros j name h kids Hj. apply list_elem_of_In in Hj. simpl in Hj.
    destruct Hj as [Hj | [Hj | []]]; injection Hj as <- _ _ _; not_in_list.
  - intros j name h kids Hj. apply list_elem_of_In in Hj. simpl in Hj.
    destruct Hj as [Hj | [Hj | []]]; injection Hj as <- _ _ _; not_in_list.
  - reflexivity.
Defined.

(** The text is read when the click happens, not at setup. *)
Example click_reads_live_text :
  option_map log (run [AppendChild 2 (Text "!"); Click 2] (setup (load sample "index.html")))
  = Some [PreventDefault; Alert "You clicked on Home!"].
Proof. reflexivity. Qed.

End NavFacts.

(** ** Facts about [once] *)

Module OnceFacts.
Import Once.

Section facts.
Variable World : Type.
Variable fn : function World.

Lemma run_when_ran (this : JS.value) (args : list JS.value) (s : state World) :
  ran World s = true -> run World fn this args s = (Return JS.VUndefined, s).
Proof. intros H. unfold run. rewrite H. reflexivity. Qed.

Lemma run_all_when_ran (cs : list (call)) (s : state World) :
  ran World s = true ->
  run_all World fn cs s = (List.map (fun _ => Return JS.VUndefined) cs, s).
Proof.
  intros H. induction cs as [| [this args] cs IH]; simpl; [reflexivity |].
  rewrite (run_when_ran this args s H), IH. reflexivity.
Qed.

Lemma run_first (this : JS.value) (args : list JS.value) (w : World) :
  run World fn this args (once World w) =
    (first_result (fst (fn this args w)),
     {| ran := true; invocations := [(this, args)]; world := snd (fn this args w) |}).
Proof.
  unfold run, once, apply. simpl.
  destruct (fn this args w) as [[v | x] w']; reflexivity.
Qed.

(** Without any call the function is not invoked at all. *)
Lemma once_no_call (w : World) :
  invocations World (snd (run_all World fn [] (once World w))) = [].
Proof. reflexivity. Qed.

(** C8.  Over any sequence of calls of the wrapper that [once]
    returns, [fn] is invoked exactly once: by the first call, with
    the [this] and the arguments of that call, whether [fn] returns
    or throws.  Every later call returns [undefined] and leaves
    everything as it is. *)
Theorem once_invokes_fn_exactly_once
        (this : JS.value) (args : list JS.value) (cs : list call) (w : World) :
  run_all World fn ((this, args) :: cs) (once World w) =
    (first_result (fst (fn this args w))
       :: List.map (fun _ => Return JS.VUndefined) cs,
     {| ran := true; invocations := [(this, args)]; world := snd (fn this args w) |}).
Proof.
  cbn [run_all]. rewrite run_first.
  rewrite run_all_when_ran by reflexivity. reflexivity.
Qed.
End facts.

(** A counter as the world; [fn] adds one and returns its receiver. *)
Example once_counter :
  run_all nat (fun this _ n => (Return this, S n))
          [(JS.VNull, []); (JS.VBool true, [JS.VNull]); (JS.VNull, [])]
          (once nat 0)
  = ([Return JS.VUndefined; Return JS.VUndefined; Return JS.VUndefined],
     {| ran := true; invocations := [(JS.VNull, [])]; world := 1 |}).
Proof. reflexivity. Qed.

End OnceFacts.

(** ** Facts about [format] *)

Module FormatFacts.
Import Format.

Lemma GetSubstitution_other (m a b : string) (c : ascii) (rest : string) :
  Ascii.eqb c "$" = false ->
  GetSubstitution m a b (String c rest) = String c (GetSubstitution m a b rest).
Proof.
  destruct c as [[] [] [] [] [] [] [] []]; intros H;
    try reflexivity; discriminate H.
Qed.

(** A replacement text without [$] stands for itself. *)
Lemma GetSubstitution_dollar_free (m a b r : string) :
  dollar_free r = true -> GetSubstitution m a b r = r.
Proof.
  induction r as [| c rest IH]; [reflexivity |]. simpl dollar_free.
  intros H. apply andb_prop in H as [Hc Hrest]. apply negb_true_iff in Hc.
  rewrite (GetSubstitution_other _ _ _ _ _ Hc), (IH Hrest). reflexivity.
Qed.

Lemma replacer_dollar_free (text r : string) :
  dollar_free r = true -> replacer text r = spec_replace_first text r.
Proof.
  intros H. unfold replacer, replace, spec_replace_first.
  destruct (String.index 0 "%s" text) as [position |]; [| reflexivity].
  rewrite (GetSubstitution_dollar_free _ _ _ _ H). reflexivity.
Qed.

(** With arguments that hold no [$], [format] does what the specification
    says. *)
Lemma format_dollar_free (initial : string) (args : list string) :
  Forall (fun r => dollar_free r = true) args ->
  format initial args = spec_format initial args.
Proof.
  unfold format, spec_format. revert initial.
  induction args as [| r args IH]; intros initial H; [reflexivity |].
  inversion H as [| ? ? Hr Hargs]; subst. simpl.
  rewrite (replacer_dollar_free initial r Hr). apply IH, Hargs.
Qed.

(** An argument that finds no [%s] is dropped. *)
Lemma replacer_no_placeholder (text r : string) :
  String.index 0 "%s" text = None -> replacer text r = text.
Proof. intros H. unfold replacer, replace. rewrite H. reflexivity. Qed.

(** [format] of a single argument returns it. *)
Lemma format_single (initial : string) : format initial [] = initial.
Proof. reflexivity. Qed.

Example format_greeting : format "oh hai %s!" ["you"] = "oh hai you!".
Proof. reflexivity. Qed.

Example format_spare_argument : format "%s and %s" ["a"; "b"; "c"] = "a and b".
Proof. reflexivity. Qed.

(** C9.  The code does not insert an argument as it is: it reads it
    as a replacement pattern.  [format("cost: %s", "$$")] is
    "cost: $", where the specification gives "cost: $$"; and [$&] brings the
    placeholder back. *)
Theorem format_reads_dollar_patterns :
  format "cost: %s" ["$$"] = "cost: $"
  /\ spec_format "cost: %s" ["$$"] = "cost: $$"
  /\ format "<%s>" ["$&"] = "<%s>"
  /\ spec_format "<%s>" ["$&"] = "<$&>".
Proof. repeat split; reflexivity. Qed.

End FormatFacts.

(** ** Facts about [util] *)

Module UtilFacts.
Import JS Util.
Local Open Scope Z_scope.

(** *** Binary64 addition of one *)

Lemma Zpos_shifted k q : Zpos (shifted k q) = Zpos q * 2 ^ Z.of_nat k.
Proof.
  induction k as [| k IH].
  - simpl. lia.
  - cbn [shifted]. rewrite Pos2Z.inj_xO, IH.
    rewrite Nat2Z.inj_succ, Z.pow_succ_r by lia. lia.
Qed.

Lemma digits_shifted k q :
  Zpos (digits2_pos (shifted k q)) = Zpos (digits2_pos q) + Z.of_nat k.
Proof.
  induction k as [| k IH].
  - simpl. lia.
  - cbn [shifted digits2_pos]. rewrite Pos2Z.inj_succ, IH. lia.
Qed.

Lemma shifted_add j k q : shifted (j + k) q = shifted j (shifted k q).
Proof. induction j as [| j IH]; simpl; [| rewrite IH]; reflexivity. Qed.

Lemma Pos_iter_shifted d m : Pos.iter xO m d = shifted (Pos.to_nat d) m.
Proof.
  rewrite Pos2Nat.inj_iter. induction (Pos.to_nat d) as [| k IH]; simpl; [| rewrite IH]; reflexivity.
Qed.

Lemma iter_pos_nat {A : Type} (f : A -> A) (p : positive) (x : A) :
  SpecFloat.iter_pos f p x = Nat.iter (Pos.to_nat p) f x.
Proof.
  revert x. induction p as [p IH | p IH |]; intros x; cbn [SpecFloat.iter_pos].
  - rewrite !IH. rewrite Pos2Nat.inj_xI. rewrite <- Nat.iter_succ_r.
    replace (S (2 * Pos.to_nat p))%nat with (Pos.to_nat p + S (Pos.to_nat p))%nat by lia.
    rewrite Nat.iter_add. reflexivity.
  - rewrite !IH. rewrite Pos2Nat.inj_xO.
    replace (2 * Pos.to_nat p)%nat with (Pos.to_nat p + Pos.to_nat p)%nat by lia.
    rewrite Nat.iter_add. reflexivity.
  - reflexivity.
Qed.

Lemma shr_shifted k m :
  Nat.iter k shr_1 {| shr_m := Zpos (shifted k m); shr_r := false; shr_s := false |}
  = {| shr_m := Zpos m; shr_r := false; shr_s := false |}.
Proof.
  induction k as [| k IH]; [reflexivity |].
  rewrite Nat.iter_succ_r. cbn [shifted shr_1 orb]. exact IH.
Qed.

Lemma shl_align_spec m e e' :
  shl_align m e e' = if e' <? e then (shifted (Z.to_nat (e - e')) m, e') else (m, e).
Proof.
  unfold shl_align. destruct (e' - e) as [| d | d] eqn:Hd.
  - rewrite (proj2 (Z.ltb_ge e' e)) by lia. reflexivity.
  - rewrite (proj2 (Z.ltb_ge e' e)) by lia. reflexivity.
  - rewrite (proj2 (Z.ltb_lt e' e)) by lia. rewrite Pos_iter_shifted.
    replace (e - e') with (Zpos d) by lia. reflexivity.
Qed.

Lemma shr_spec mrs e n :
  shr mrs e n = if 0 <? n then (Nat.iter (Z.to_nat n) shr_1 mrs, e + n) else (mrs, e).
Proof.
  unfold shr. destruct n as [| p | p]; try reflexivity.
  rewrite iter_pos_nat. reflexivity.
Qed.

(** Rounding a value that fits: [q] has at most 53 digits. *)
Lemma binary_round_fits sx q k e :
  let d := Zpos (digits2_pos q) in
  let E := e + Z.of_nat k + d - 53 in
  d <= 53 -> -1074 <= E <= 971 ->
  binary_round prec emax sx (shifted k q) e
  = S754_finite sx (shifted (Z.to_nat (53 - d)) q) E.
Proof.
  intros d E Hd HE. unfold binary_round.
  assert (HdE : d = Zpos (digits2_pos q)) by reflexivity.
  assert (HEE : E = e + Z.of_nat k + d - 53) by reflexivity.
  assert (Hd1 : 1 <= d) by lia.
  clearbody E d.
  assert (Hfexp : fexp prec emax (Zpos (digits2_pos (shifted k q)) + e) = E).
  { rewrite digits_shifted. unfold fexp, emin, prec, emax. lia. }
  rewrite Hfexp, shl_align_spec.
  destruct (E <? e) eqn:Hlt.
  - apply Z.ltb_lt in Hlt.
    assert (Hm : shifted (Z.to_nat (e - E)) (shifted k q) = shifted (Z.to_nat (53 - d)) q).
    { rewrite <- shifted_add. f_equal. lia. }
    rewrite Hm. unfold binary_round_aux, shr_fexp. cbn [Zdigits2 shr_record_of_loc].
    assert (Hf2 : fexp prec emax (Zpos (digits2_pos (shifted (Z.to_nat (53 - d)) q)) + E) - E = 0).
    { rewrite digits_shifted. unfold fexp, emin, prec, emax. lia. }
    rewrite Hf2. cbn [shr shr_m loc_of_shr_record round_nearest_even Zdigits2 shr_record_of_loc].
    rewrite Hf2. cbn [shr shr_m].
    rewrite (proj2 (Z.leb_le E (emax - prec))) by (unfold emax, prec; lia). reflexivity.
  - apply Z.ltb_ge in Hlt.
    unfold binary_round_aux, shr_fexp. cbn [Zdigits2 shr_record_of_loc].
    rewrite Hfexp, shr_spec.
    assert (Hsplit : shifted k q = shifted (Z.to_nat (E - e)) (shifted (Z.to_nat (53 - d)) q)).
    { rewrite <- shifted_add. f_equal. lia. }
    assert (Hf2 : fexp prec emax (Zpos (digits2_pos (shifted (Z.to_nat (53 - d)) q)) + E) - E = 0).
    { rewrite digits_shifted. unfold fexp, emin, prec, emax. lia. }
    destruct (0 <? E - e) eqn:Hpos.
    + rewrite Hsplit, shr_shifted.
      cbn [shr_m loc_of_shr_record round_nearest_even Zdigits2 shr_record_of_loc].
      replace (e + (E - e)) with E by lia.
      rewrite Hf2. cbn [shr shr_m].
      rewrite (proj2 (Z.leb_le E (emax - prec))) by (unfold emax, prec; lia). reflexivity.
    + apply Z.ltb_ge in Hpos. assert (He : e = E) by lia.
      rewrite Hsplit. replace (Z.to_nat (E - e)) with 0%nat by lia. cbn [shifted].
      rewrite He.
      cbn [shr_m loc_of_shr_record round_nearest_even Zdigits2 shr_record_of_loc].
      rewrite Hf2. cbn [shr shr_m].
      rewrite (proj2 (Z.leb_le E (emax - prec))) by (unfold emax, prec; lia). reflexivity.
Qed.

Lemma digits2_pos_size p : digits2_pos p = Pos.size p.
Proof. induction p as [p IH | p IH |]; simpl; [rewrite IH | rewrite IH |]; reflexivity. Qed.

Lemma digits_le_53 p : Zpos p < 2 ^ 53 -> Zpos (digits2_pos p) <= 53.
Proof.
  intros H. rewrite digits2_pos_size.
  pose proof (Pos.size_le p) as Hle.
  apply Pos2Z.pos_le_pos in Hle. rewrite Pos2Z.inj_pow in Hle.
  destruct (Z_le_gt_dec (Zpos (Pos.size p)) 53) as [Hok | Hbig]; [exact Hok |].
  exfalso.
  assert (2 ^ 54 <= 2 ^ Zpos (Pos.size p)) by (apply Z.pow_le_mono_r; lia).
  change (Zpos 2) with 2 in Hle.
  assert (Hdouble : Zpos p~0 = 2 * Zpos p) by reflexivity.
  change (2 ^ 54) with (2 * 2 ^ 53) in *. lia.
Qed.

Lemma of_Z_pos p :
  Zpos p < 2 ^ 53 ->
  of_Z (Zpos p) =
    S754_finite false (shifted (Z.to_nat (53 - Zpos (digits2_pos p))) p)
                (Zpos (digits2_pos p) - 53).
Proof.
  intros H. pose proof (digits_le_53 p H) as Hd.
  unfold of_Z, binary_normalize.
  etransitivity; [apply (binary_round_fits false p 0 0); lia |].
  f_equal; simpl; lia.
Qed.

Lemma of_Z_neg p :
  Zpos p < 2 ^ 53 ->
  of_Z (Zneg p) =
    S754_finite true (shifted (Z.to_nat (53 - Zpos (digits2_pos p))) p)
                (Zpos (digits2_pos p) - 53).
Proof.
  intros H. pose proof (digits_le_53 p H) as Hd.
  unfold of_Z, binary_normalize.
  etransitivity; [apply (binary_round_fits true p 0 0); lia |].
  f_equal; simpl; lia.
Qed.

(** A value [q * 2^52] at exponent [-52] rounds to the Number of [q]. *)
Lemma binary_round_scaled sx q :
  Zpos q <= 2 ^ 53 ->
  binary_round prec emax sx (shifted 52 q) (-52) = binary_round prec emax sx q 0.
Proof.
  intros H. destruct (Z.eq_dec (Zpos q) (2 ^ 53)) as [Heq | Hne].
  - assert (q = shifted 53 1)%positive by (apply Pos2Z.inj; rewrite Heq; reflexivity).
    subst q. destruct sx; vm_compute; reflexivity.
  - assert (Hlt : Zpos q < 2 ^ 53) by lia.
    pose proof (digits_le_53 q Hlt) as Hd.
    rewrite (binary_round_fits sx q 52 (-52)) by lia.
    symmetry. etransitivity; [apply (binary_round_fits sx q 0 0); lia |].
    f_equal; simpl; lia.
Qed.

Lemma shl_align_to_52 p :
  Zpos p < 2 ^ 53 ->
  fst (shl_align (shifted (Z.to_nat (53 - Zpos (digits2_pos p))) p)
                 (Zpos (digits2_pos p) - 53) (-52))
  = shifted 52 p.
Proof.
  intros H. pose proof (digits_le_53 p H) as Hd.
  rewrite shl_align_spec.
  destruct (-52 <? Zpos (digits2_pos p) - 53) eqn:Hlt; cbn [fst].
  - apply Z.ltb_lt in Hlt. rewrite <- shifted_add. f_equal. lia.
  - apply Z.ltb_ge in Hlt. f_equal. lia.
Qed.

Lemma shifted_succ k p : (shifted k p + shifted k 1 = shifted k (p + 1))%positive.
Proof.
  apply Pos2Z.inj. rewrite Pos2Z.inj_add, !Zpos_shifted, Pos2Z.inj_add. lia.
Qed.

Lemma of_Z_one : of_Z 1 = S754_finite false (shifted 52 1) (-52).
Proof. reflexivity. Qed.

(** Adding one to an integer that a Number holds exactly. *)
Lemma add_one_exact (n : Z) :
  - 2 ^ 53 <= n < 2 ^ 53 -> Number_add (of_Z n) (of_Z 1) = of_Z (n + 1).
Proof.
  intros Hn. destruct n as [| p | p].
  - reflexivity.
  - assert (Hp : Zpos p < 2 ^ 53) by lia.
    pose proof (digits_le_53 p Hp) as Hd.
    rewrite (of_Z_pos p Hp), of_Z_one. unfold Number_add, SFadd.
    rewrite Z.min_r by lia.
    rewrite (shl_align_to_52 p Hp).
    rewrite shl_align_spec, Z.ltb_irrefl. cbn [fst cond_Zopp].
    rewrite <- Pos2Z.inj_add, shifted_succ. cbn [binary_normalize].
    rewrite binary_round_scaled by lia.
    replace (Zpos p + 1) with (Zpos (p + 1)) by lia. reflexivity.
  - destruct (Z.eq_dec (Zpos p) (2 ^ 53)) as [Heq | Hne].
    + assert (p = shifted 53 1)%positive by (apply Pos2Z.inj; rewrite Heq; reflexivity).
      subst p. vm_compute. reflexivity.
    + assert (Hp : Zpos p < 2 ^ 53) by lia.
      pose proof (digits_le_53 p Hp) as Hd.
      rewrite (of_Z_neg p Hp), of_Z_one. unfold Number_add, SFadd.
      rewrite Z.min_r by lia.
      rewrite (shl_align_to_52 p Hp).
      rewrite shl_align_spec, Z.ltb_irrefl. cbn [fst cond_Zopp].
      destruct (Pos.eq_dec p 1%positive) as [-> | Hp1].
      * reflexivity.
      * assert (Hpred : (p = (p - 1) + 1)%positive) by lia.
        rewrite Hpred at 1. rewrite <- shifted_succ.
        replace (- Zpos (shifted 52 (p - 1) + shifted 52 1) + Zpos (shifted 52 1))
          with (Zneg (shifted 52 (p - 1))) by lia.
        cbn [binary_normalize]. rewrite binary_round_scaled by lia.
        replace (Zneg p + 1) with (Zneg (p - 1)) by lia. reflexivity.
Qed.

(** The stored form of an integer of magnitude at most 2^53. *)
Lemma binary_round_form sx p :
  Zpos p <= 2 ^ 53 ->
  exists m e,
    binary_round prec emax sx p 0 = S754_finite sx m e
    /\ 0 <= e + 52
    /\ Zpos m * 2 ^ (e + 52) = Zpos p * 2 ^ 52
    /\ 2 ^ 52 <= Zpos m < 2 ^ 53.
Proof.
  intros Hp. destruct (Z.eq_dec (Zpos p) (2 ^ 53)) as [Heq | Hne].
  - assert (p = shifted 53 1)%positive by (apply Pos2Z.inj; rewrite Heq; reflexivity).
    subst p. exists (shifted 52 1), 1.
    split; [destruct sx; vm_compute; reflexivity |].
    split; [lia |]. split; [reflexivity |]. split; [discriminate | reflexivity].
  - assert (Hlt : Zpos p < 2 ^ 53) by lia.
    pose proof (digits_le_53 p Hlt) as Hd.
    set (d := Zpos (digits2_pos p)) in *.
    assert (Hd1 : 1 <= d) by (unfold d; lia).
    exists (shifted (Z.to_nat (53 - d)) p), (d - 53).
    split.
    { etransitivity; [apply (binary_round_fits sx p 0 0); fold d; lia |].
      fold d. f_equal; simpl; lia. }
    split; [lia |].
    rewrite Zpos_shifted, Z2Nat.id by lia.
    assert (Hsize_gt : Zpos p < 2 ^ d).
    { unfold d. rewrite digits2_pos_size.
      pose proof (Pos.size_gt p) as H. apply Pos2Z.pos_lt_pos in H.
      rewrite Pos2Z.inj_pow in H. exact H. }
    assert (Hsize_le : 2 ^ d <= 2 * Zpos p).
    { unfold d. rewrite digits2_pos_size.
      pose proof (Pos.size_le p) as H. apply Pos2Z.pos_le_pos in H.
      rewrite Pos2Z.inj_pow in H. exact H. }
    assert (Hsplit : 2 ^ 53 = 2 ^ d * 2 ^ (53 - d)).
    { rewrite <- Z.pow_add_r by lia. f_equal. lia. }
    assert (Hpos : 0 < 2 ^ (53 - d)) by (apply Z.pow_pos_nonneg; lia).
    split.
    + rewrite <- Z.mul_assoc, <- Z.pow_add_r by lia. do 2 f_equal. lia.
    + change (2 ^ 52 * 2) with (2 ^ 53). nia.
Qed.

Lemma finite_lt_false m1 e1 m2 e2 (v1 v2 : Z) :
  0 <= e1 + 52 -> 0 <= e2 + 52 ->
  Zpos m1 * 2 ^ (e1 + 52) = v1 -> Zpos m2 * 2 ^ (e2 + 52) = v2 ->
  2 ^ 52 <= Zpos m1 < 2 ^ 53 -> 2 ^ 52 <= Zpos m2 < 2 ^ 53 ->
  v1 < v2 ->
  (e1 ?= e2) = Lt \/ ((e1 ?= e2) = Eq /\ (m1 ?= m2)%positive = Lt).
Proof.
  intros H1 H2 Hv1 Hv2 Hm1 Hm2 Hlt.
  assert (Hp1 : 0 < 2 ^ (e1 + 52)) by (apply Z.pow_pos_nonneg; lia).
  assert (Hp2 : 0 < 2 ^ (e2 + 52)) by (apply Z.pow_pos_nonneg; lia).
  destruct (Z.compare_spec e1 e2) as [Heq | Hl | Hg].
  - right. split; [reflexivity |]. subst e2. apply Pos.compare_lt_iff.
    apply Pos2Z.pos_lt_pos. nia.
  - left. reflexivity.
  - exfalso.
    assert (Hpow : 2 * 2 ^ (e2 + 52) <= 2 ^ (e1 + 52)).
    { rewrite <- Z.pow_succ_r by lia. apply Z.pow_le_mono_r; lia. }
    change (2 ^ 53) with (2 * 2 ^ 52) in *. nia.
Qed.

(** On integers of magnitude at most 2^53 the order of Numbers is the
    order of the integers. *)
Lemma of_Z_increasing (a b : Z) :
  - 2 ^ 53 <= a -> a < b -> b <= 2 ^ 53 ->
  SFltb (of_Z a) (of_Z b) = true.
Proof.
  intros Ha Hab Hb. unfold SFltb, of_Z, binary_normalize.
  destruct a as [| p | p]; destruct b as [| q | q]; try lia.
  - destruct (binary_round_form false q) as (m & e & -> & _); [lia | reflexivity].
  - destruct (binary_round_form false p) as (m1 & e1 & -> & He1 & Hv1 & Hm1); [lia |].
    destruct (binary_round_form false q) as (m2 & e2 & -> & He2 & Hv2 & Hm2); [lia |].
    cbn [SFcompare].
    destruct (finite_lt_false m1 e1 m2 e2 _ _ He1 He2 Hv1 Hv2 Hm1 Hm2) as [-> | [-> Hm]];
      [lia | reflexivity |].
    change (Pos.compare_cont Eq m1 m2) with (m1 ?= m2)%positive. rewrite Hm. reflexivity.
  - destruct (binary_round_form true p) as (m & e & -> & _); [lia | reflexivity].
  - destruct (binary_round_form true p) as (m1 & e1 & -> & _); [lia |].
    destruct (binary_round_form false q) as (m2 & e2 & -> & _); [lia | reflexivity].
  - destruct (binary_round_form true p) as (m1 & e1 & -> & He1 & Hv1 & Hm1); [lia |].
    destruct (binary_round_form true q) as (m2 & e2 & -> & He2 & Hv2 & Hm2); [lia |].
    cbn [SFcompare].
    destruct (finite_lt_false m2 e2 m1 e1 _ _ He2 He1 Hv2 Hv1 Hm2 Hm1) as [He | [He Hm]];
      [lia | |].
    + rewrite Z.compare_antisym, He. reflexivity.
    + rewrite Z.compare_antisym, He. cbn [CompOpp].
      change (Pos.compare_cont Eq m1 m2) with (m1 ?= m2)%positive.
      rewrite Pos.compare_antisym, Hm. reflexivity.
Qed.

(** *** The counter *)

Lemma of_Z_truthy (n : Z) :
  - 2 ^ 53 <= n <= 2 ^ 53 -> n <> 0 -> ToBoolean (VNumber (of_Z n)) = true.
Proof.
  intros Hn Hz. destruct n as [| p | p]; [congruence | |];
    unfold of_Z, binary_normalize.
  - destruct (binary_round_form false p) as (m & e & -> & _); [lia | reflexivity].
  - destruct (binary_round_form true p) as (m & e & -> & _); [lia | reflexivity].
Qed.

Lemma calls_from_integer (stn : string -> number) (k : nat) (n : Z) :
  - 2 ^ 53 <= n -> n + Z.of_nat k <= 2 ^ 53 ->
  calls stn k {| foo := VNumber (of_Z n) |}
  = List.map (fun i => VNumber (of_Z i)) (consecutive n k).
Proof.
  revert n. induction k as [| k IH]; intros n Hlo Hhi; [reflexivity |].
  cbn [calls uuid add consecutive List.map foo ToNumber].
  rewrite add_one_exact by lia. rewrite IH by lia. reflexivity.
Qed.

Lemma consecutive_range (k : nat) (n i : Z) :
  In i (consecutive n k) -> n <= i < n + Z.of_nat k.
Proof.
  revert n. induction k as [| k IH]; intros n H; [destruct H |].
  cbn [consecutive] in H. destruct H as [<- | H]; [lia |].
  apply IH in H. lia.
Qed.

Lemma consecutive_sorted (k : nat) (n : Z) :
  - 2 ^ 53 <= n -> n + Z.of_nat k <= 2 ^ 53 ->
  StronglySorted value_lt (List.map (fun i => VNumber (of_Z i)) (consecutive n k)).
Proof.
  revert n. induction k as [| k IH]; intros n Hlo Hhi; [constructor |].
  cbn [consecutive List.map]. constructor; [apply IH; lia |].
  apply List.Forall_forall. intros v Hv. apply in_map_iff in Hv as (i & <- & Hi).
  apply consecutive_range in Hi. cbn [value_lt]. apply of_Z_increasing; lia.
Qed.

(** C10, as stated, fails: started at 2^53, which is an integer and
    truthy, every call returns 2^53; the values do not increase. *)
Lemma uuid_repeats_at_two_pow_53 :
  ToBoolean (VNumber two_pow_53) = true
  /\ calls no_numeral 3 (util {[ "start" := VNumber two_pow_53 ]})
     = [VNumber two_pow_53; VNumber two_pow_53; VNumber two_pow_53].
Proof. split; vm_compute; reflexivity. Qed.

(** Other truthy starts that do not give consecutive integers: a
    fraction and an infinity. *)
Example uuid_from_infinity :
  calls no_numeral 2 (util {[ "start" := VNumber (S754_infinity false) ]})
  = [VNumber (S754_infinity false); VNumber (S754_infinity false)].
Proof. vm_compute. reflexivity. Qed.

(** Whatever the counter holds, [k] calls return its Number and the
    Numbers that adding one, again and again, gives. *)
Lemma calls_increments (stn : string -> number) (k : nat) (s : state) :
  calls stn k s = List.map VNumber (increments k (ToNumber stn (foo s))).
Proof.
  revert s. induction k as [| k IH]; intros s; [reflexivity |].
  cbn [calls uuid add increments List.map]. rewrite IH. reflexivity.
Qed.

(** C10, amended.  For every options object the counter starts at
    [options.start] when that value is truthy and at 0 otherwise;
    each call of [uuid] returns the Number of the counter and stores
    that Number plus one, so [k] calls return the Number [x] of the
    initial counter, then [x + 1], [(x + 1) + 1] and so on.  When the
    start is falsy, or is a Number that holds an integer [n] with
    [-2^53 <= n], the first [k] calls return the Numbers of the
    consecutive integers [n], [n+1], ..., [n+k-1] ([n] is 0 for a
    falsy start), as long as [n + k <= 2^53]; each of these values is
    less than every later one. *)
Theorem uuid_counts_from_start (stn : string -> number) (options : object) (k : nat) :
  foo (util options)
    = (if ToBoolean (get options "start") then get options "start"
       else VNumber (of_Z 0))
  /\ (forall s : state,
         uuid stn s
         = (VNumber (ToNumber stn (foo s)),
            {| foo := VNumber (Number_add (ToNumber stn (foo s)) (of_Z 1)) |}))
  /\ calls stn k (util options)
     = List.map VNumber (increments k (ToNumber stn (foo (util options))))
  /\ (forall n : Z,
         get options "start" = VNumber (of_Z n)
         \/ (ToBoolean (get options "start") = false /\ n = 0) ->
         - 2 ^ 53 <= n -> n + Z.of_nat k <= 2 ^ 53 ->
         foo (util options) = VNumber (of_Z n)
         /\ calls stn k (util options)
            = List.map (fun i => VNumber (of_Z i)) (consecutive n k)
         /\ StronglySorted value_lt (calls stn k (util options))).
Proof.
  split; [reflexivity |]. split; [reflexivity |].
  split; [apply calls_increments |].
  intros n Hstart Hlo Hhi.
  assert (Hfoo : foo (util options) = VNumber (of_Z n)).
  { unfold util, reset. cbn [foo]. destruct Hstart as [Hs | [Hs ->]].
    - rewrite Hs. destruct (Z.eq_dec n 0) as [-> | Hnz]; [reflexivity |].
      rewrite of_Z_truthy by lia. reflexivity.
    - rewrite Hs. reflexivity. }
  split; [exact Hfoo |].
  destruct (util options) as [v]. cbn [foo] in Hfoo. subst v.
  rewrite calls_from_integer by assumption.
  split; [reflexivity | apply consecutive_sorted; assumption].
Qed.

(** A start that is truthy and not a Number, [true], counts from 1;
    the start 5 counts from 5. *)
Lemma uuid_counts_from_start_witness :
  (foo (util {[ "start" := VBool true ]}) = VBool true
   /\ uuid no_numeral (util {[ "start" := VBool true ]})
      = (VNumber (of_Z 1), {| foo := VNumber (of_Z 2) |})
   /\ calls no_numeral 3 (util {[ "start" := VBool true ]})
      = [VNumber (of_Z 1); VNumber (of_Z 2); VNumber (of_Z 3)])
  /\ (foo (util {[ "start" := VNumber (of_Z 5) ]}) = VNumber (of_Z 5)
      /\ calls no_numeral 3 (util {[ "start" := VNumber (of_Z 5) ]})
         = List.map (fun i => VNumber (of_Z i)) (consecutive 5 3)
      /\ StronglySorted value_lt
           (calls no_numeral 3 (util {[ "start" := VNumber (of_Z 5) ]}))).
Proof.
  split.
  - pose proof (uuid_counts_from_start no_numeral {[ "start" := VBool true ]} 3)
      as (H1 & H2 & H3 & _).
    split; [exact H1 |]. split; [| exact H3].
    exact (H2 (util {[ "start" := VBool true ]})).
  - pose proof (uuid_counts_from_start no_numeral {[ "start" := VNumber (of_Z 5) ]} 3)
      as (_ & _ & _ & H4).
    apply (H4 5).
    + left. reflexivity.
    + vm_compute. discriminate.
    + vm_compute. discriminate.
Defined.

Example uuid_without_start :
  calls no_numeral 3 (util ∅) = [VNumber (of_Z 0); VNumber (of_Z 1); VNumber (of_Z 2)].
Proof. vm_compute. reflexivity. Qed.

End UtilFacts.

(** ** Facts about the addition of Numbers *)

Module NumberFacts.
Import JS Util UtilFacts.
Local Open Scope Z_scope.

Lemma Number_add_comm (x y : number) : Number_add x y = Number_add y x.
Proof.
  unfold Number_add, SFadd.
  destruct x as [sx | sx | | sx mx ex], y as [sy | sy | | sy my ey];
    try reflexivity; try (destruct sx, sy; reflexivity).
  rewrite Z.min_comm, Z.add_comm. reflexivity.
Qed.

Lemma shl_align_value m e ez :
  ez <= e -> Zpos (fst (shl_align m e ez)) = Zpos m * 2 ^ (e - ez).
Proof.
  intros Hle. rewrite shl_align_spec. destruct (ez <? e) eqn:Hlt; cbn [fst].
  - rewrite Zpos_shifted, Z2Nat.id by lia. reflexivity.
  - apply Z.ltb_ge in Hlt. replace (e - ez) with 0 by lia. lia.
Qed.

Lemma shifted_unique k p s : Zpos s = Zpos p * 2 ^ Z.of_nat k -> s = shifted k p.
Proof. intros H. apply Pos2Z.inj. rewrite H, Zpos_shifted. reflexivity. Qed.

(** Rounding depends on the value only: [s * 2^ez = p]. *)
Lemma binary_round_value sx s p ez :
  - 52 <= ez <= 1 -> Zpos s * 2 ^ (ez + 52) = Zpos p * 2 ^ 52 -> Zpos p <= 2 ^ 53 ->
  binary_round prec emax sx s ez = binary_round prec emax sx p 0.
Proof.
  intros Hez Hval Hp.
  destruct (Z.eq_dec ez 1) as [-> | Hne].
  - assert (Hps : Zpos p = Zpos s * 2 ^ Z.of_nat 1).
    { change (2 ^ (1 + 52)) with (2 * 2 ^ 52) in Hval.
      change (2 ^ Z.of_nat 1) with 2. change (2 ^ 52) with 4503599627370496 in Hval. lia. }
    apply shifted_unique in Hps. subst p.
    assert (Hs : Zpos s < 2 ^ 53).
    { rewrite Zpos_shifted in Hp. change (2 ^ Z.of_nat 1) with 2 in Hp.
      change (2 ^ 53) with 9007199254740992 in *. lia. }
    pose proof (digits_le_53 s Hs) as Hd.
    rewrite (binary_round_fits sx s 1 0) by lia.
    etransitivity; [apply (binary_round_fits sx s 0 1); lia |].
    f_equal; simpl; lia.
  - assert (Hk : 0 <= - ez <= 52) by lia.
    assert (Hsp : Zpos s = Zpos p * 2 ^ Z.of_nat (Z.to_nat (- ez))).
    { rewrite Z2Nat.id by lia.
      assert (Hsplit : 2 ^ 52 = 2 ^ (- ez) * 2 ^ (ez + 52)).
      { rewrite <- Z.pow_add_r by lia. f_equal. lia. }
      assert (Hpos : 0 < 2 ^ (ez + 52)) by (apply Z.pow_pos_nonneg; lia).
      rewrite Hsplit in Hval. nia. }
    apply shifted_unique in Hsp. subst s.
    set (k := Z.to_nat (- ez)) in *.
    replace ez with (- Z.of_nat k) by (unfold k; lia).
    destruct (Z.eq_dec (Zpos p) (2 ^ 53)) as [Heq | Hlt].
    + assert (p = shifted 53 1)%positive by (apply Pos2Z.inj; rewrite Heq; reflexivity).
      subst p. rewrite <- shifted_add.
      rewrite (binary_round_fits sx 1 (k + 53) (- Z.of_nat k)) by (simpl; lia).
      rewrite (binary_round_fits sx 1 53 0) by (simpl; lia).
      f_equal; simpl; lia.
    + assert (Hlt' : Zpos p < 2 ^ 53) by lia.
      pose proof (digits_le_53 p Hlt') as Hd.
      rewrite (binary_round_fits sx p k (- Z.of_nat k)) by lia.
      etransitivity; [| symmetry; apply (binary_round_fits sx p 0 0); lia].
      f_equal; simpl; lia.
Qed.

Lemma binary_normalize_value (S z ez : Z) :
  - 52 <= ez <= 1 -> S * 2 ^ (ez + 52) = z * 2 ^ 52 -> - 2 ^ 53 <= z <= 2 ^ 53 ->
  binary_normalize prec emax S ez false = of_Z z.
Proof.
  intros Hez Hval Hz.
  assert (Hpos : 0 < 2 ^ (ez + 52)) by (apply Z.pow_pos_nonneg; lia).
  assert (H52 : 0 < 2 ^ 52) by reflexivity.
  unfold of_Z. destruct S as [| s | s], z as [| p | p]; try reflexivity; try nia;
    cbn [binary_normalize]; apply binary_round_value; try lia.
  all: rewrite <- !Pos2Z.opp_pos in Hval; lia.
Qed.

(** The stored form of a non-zero integer of magnitude at most 2^53. *)
Lemma of_Z_form (z : Z) :
  - 2 ^ 53 <= z <= 2 ^ 53 -> z <> 0 ->
  exists m e,
    of_Z z = S754_finite (z <? 0) m e
    /\ - 52 <= e <= 1
    /\ cond_Zopp (z <? 0) (Zpos m) * 2 ^ (e + 52) = z * 2 ^ 52.
Proof.
  intros Hz Hnz.
  assert (Hform : forall sx p, Zpos p <= 2 ^ 53 ->
            exists m e, binary_round prec emax sx p 0 = S754_finite sx m e
                        /\ - 52 <= e <= 1
                        /\ Zpos m * 2 ^ (e + 52) = Zpos p * 2 ^ 52).
  { intros sx p Hp.
    destruct (binary_round_form sx p Hp) as (m & e & Hr & He & Hv & Hm).
    exists m, e. split; [exact Hr |]. split; [| exact Hv]. split; [lia |].
    destruct (Z_le_gt_dec e 1) as [Hle | Hgt]; [exact Hle | exfalso].
    assert (Hpow : 2 ^ 54 <= 2 ^ (e + 52)) by (apply Z.pow_le_mono_r; lia).
    change (2 ^ 54) with (2 * 2 ^ 53) in Hpow.
    change (2 ^ 53) with 9007199254740992 in *.
    change (2 ^ 52) with 4503599627370496 in *. nia. }
  destruct z as [| p | p]; [congruence | |].
  - destruct (Hform false p) as (m & e & Hr & He & Hv); [lia |].
    exists m, e. auto.
  - destruct (Hform true p) as (m & e & Hr & He & Hv); [lia |].
    exists m, e. split; [exact Hr |]. split; [exact He |].
    cbn [Z.ltb Z.compare cond_Zopp]. rewrite <- Pos2Z.opp_pos. lia.
Qed.

(** Adding two integers that Numbers hold exactly, when the sum is
    such an integer too. *)
Lemma Number_add_exact (a b : Z) :
  - 2 ^ 53 <= a <= 2 ^ 53 -> - 2 ^ 53 <= b <= 2 ^ 53 ->
  - 2 ^ 53 <= a + b <= 2 ^ 53 ->
  Number_add (of_Z a) (of_Z b) = of_Z (a + b).
Proof.
  intros Ha Hb Hab.
  destruct (Z.eq_dec a 0) as [-> | Hna].
  { destruct (Z.eq_dec b 0) as [-> | Hnb]; [reflexivity |].
    destruct (of_Z_form b Hb Hnb) as (m & e & Hr & _). rewrite Z.add_0_l, Hr. reflexivity. }
  destruct (Z.eq_dec b 0) as [-> | Hnb].
  { destruct (of_Z_form a Ha Hna) as (m & e & Hr & _). rewrite Z.add_0_r, Hr. reflexivity. }
  destruct (of_Z_form a Ha Hna) as (m1 & e1 & Hr1 & He1 & Hv1).
  destruct (of_Z_form b Hb Hnb) as (m2 & e2 & Hr2 & He2 & Hv2).
  rewrite Hr1, Hr2. unfold Number_add, SFadd.
  set (ez := Z.min e1 e2).
  assert (Hez : - 52 <= ez <= 1) by (unfold ez; lia).
  apply binary_normalize_value; [exact Hez | | exact Hab].
  rewrite !shl_align_value by (unfold ez; lia).
  assert (Hp1 : 2 ^ (e1 - ez) * 2 ^ (ez + 52) = 2 ^ (e1 + 52)).
  { rewrite <- Z.pow_add_r by (unfold ez; lia). f_equal. lia. }
  assert (Hp2 : 2 ^ (e2 - ez) * 2 ^ (ez + 52) = 2 ^ (e2 + 52)).
  { rewrite <- Z.pow_add_r by (unfold ez; lia). f_equal. lia. }
  rewrite Z.mul_add_distr_r, Z.mul_add_distr_r, <- Hv1, <- Hv2.
  destruct (a <? 0), (b <? 0); cbn [cond_Zopp];
    rewrite ?Z.mul_opp_l, <- !Z.mul_assoc, Hp1, Hp2; reflexivity.
Qed.

End NumberFacts.

(** ** Facts about the further snippets *)

Module GuideFacts.
Import JS Util Guide.

(** *** Equality *)

Lemma Number_equal_zero (x : number) :
  Number_equal x (S754_zero false) = true <-> exists s, x = S754_zero s.
Proof.
  unfold Number_equal, SFeqb. destruct x as [s | s | | s m e]; simpl.
  - split; [intros _; exists s; reflexivity | reflexivity].
  - destruct s; split; try discriminate; intros [s' H]; discriminate H.
  - split; [discriminate | intros [s' H]; discriminate H].
  - destruct s; split; try discriminate; intros [s' H]; discriminate H.
Qed.

Section equality_facts.
Variable stn : string -> number.
Variable stbi : string -> option Z.
Hypothesis stn_empty : stn EmptyString = S754_zero false.
Hypothesis stbi_empty : stbi EmptyString = Some 0%Z.

Lemma loosely_equal_empty (v : value) :
  IsLooselyEqual stn v (VString EmptyString) = true <->
  v = VString EmptyString \/ v = VBool false \/ exists s, v = VNumber (S754_zero s).
Proof.
  unfold IsLooselyEqual.
  destruct v as [| | b | x | s];
    cbn [unbool loosely_equal_unboxed IsStrictlyEqual ToNumber].
  - split; [discriminate | intros [H | [H | [s H]]]; discriminate H].
  - split; [discriminate | intros [H | [H | [s H]]]; discriminate H].
  - rewrite stn_empty. destruct b.
    + split; [vm_compute; discriminate | intros [H | [H | [s H]]]; discriminate H].
    + split; [intros _; right; left; reflexivity | intros _; vm_compute; reflexivity].
  - rewrite stn_empty, Number_equal_zero. split.
    + intros [s ->]. right. right. exists s. reflexivity.
    + intros [H | [H | [s H]]]; try discriminate H. injection H as ->. exists s. reflexivity.
  - rewrite String.eqb_eq. split.
    + intros ->. left. reflexivity.
    + intros [H | [H | [s' H]]]; try discriminate H. injection H as ->. reflexivity.
Qed.

Lemma primitive_equals_empty (p : primitive) :
  primitive_equals_string stn stbi p EmptyString = true <->
  p = PValue (VString EmptyString) \/ p = PValue (VBool false)
  \/ (exists s, p = PValue (VNumber (S754_zero s))) \/ p = PBigInt 0.
Proof.
  destruct p as [v | z | i]; cbn [primitive_equals_string].
  - rewrite loosely_equal_empty. split.
    + intros [-> | [-> | [s ->]]]; eauto 6.
    + intros [H | [H | [[s H] | H]]]; try discriminate H; injection H as ->; eauto.
  - rewrite stbi_empty, Z.eqb_eq. split.
    + intros ->. auto.
    + intros [H | [H | [[s H] | H]]]; try discriminate H. injection H as ->. reflexivity.
  - split; [discriminate |].
    intros [H | [H | [[s H] | H]]]; discriminate H.
Qed.
End equality_facts.

(** X1.  The strict [isEmptyString] accepts the empty string and no
    other value, of any kind.  The loose one accepts exactly the
    values whose conversion to a primitive gives the empty string,
    [false], [+0], [-0] or the BigInt 0: these primitives themselves,
    and the objects that convert to one of them (an empty array
    converts to the empty string); it throws exactly when the
    conversion of the object throws.  (The empty string converts to
    the Number [+0] and to the BigInt 0.) *)
Theorem isEmptyString_accepts {Obj : Type} (stn : string -> number)
        (stbi : string -> option Z) (otp : Obj -> completion Obj primitive)
        (text : any Obj) :
  stn EmptyString = S754_zero false ->
  stbi EmptyString = Some 0%Z ->
  (isEmptyString text = true <-> text = Prim (PValue (VString EmptyString)))
  /\ (isEmptyString_loose stn stbi otp text = Normal true <->
        exists p, ToPrimitive otp text = Normal p
                  /\ (p = PValue (VString EmptyString) \/ p = PValue (VBool false)
                      \/ (exists s, p = PValue (VNumber (S754_zero s)))
                      \/ p = PBigInt 0))
  /\ (forall e, isEmptyString_loose stn stbi otp text = Throws e <->
                exists o, text = Ref o /\ otp o = Throws e).
Proof.
  intros Hstn Hstbi. split; [| split].
  - unfold isEmptyString, strictly_equals_string.
    destruct text as [[[| | b | x | s] | z | i] | o]; cbn [IsStrictlyEqual];
      try (split; [discriminate | intros H; discriminate H]).
    rewrite String.eqb_eq. split; [intros ->; reflexivity | intros [= ->]; reflexivity].
  - unfold isEmptyString_loose, equals_string.
    destruct (ToPrimitive otp text) as [p | e].
    + split.
      * intros [= H]. exists p. split; [reflexivity |].
        apply (primitive_equals_empty stn stbi Hstn Hstbi), H.
      * intros (q & [= <-] & H). f_equal.
        apply (primitive_equals_empty stn stbi Hstn Hstbi), H.
    + split; [discriminate | intros (q & H & _); discriminate H].
  - intros e. unfold isEmptyString_loose, equals_string.
    destruct text as [p | o]; cbn [ToPrimitive].
    + split; [discriminate | intros (o & H & _); discriminate H].
    + destruct (otp o) as [p | e'] eqn:Ho.
      * split; [discriminate |]. intros (o' & [= <-] & H). congruence.
      * split.
        -- intros [= ->]. exists o. auto.
        -- intros (o' & [= <-] & H). congruence.
Qed.

(** An empty array is not the empty string, but loosely equal to it;
    the comparison with an object whose conversion throws, throws. *)
Lemma isEmptyString_accepts_witness :
  (isEmptyString (Ref empty_array) = true <->
     Ref empty_array = Prim (PValue (VString EmptyString)))
  /\ isEmptyString_loose empty_is_zero empty_is_zero_bigint two_objects_to_primitive
       (Ref empty_array) = Normal true
  /\ isEmptyString_loose empty_is_zero empty_is_zero_bigint two_objects_to_primitive
       (Ref thrower) = Throws (Thrown (Prim (PValue (VString "no")))).
Proof.
  split; [| split].
  - apply (isEmptyString_accepts empty_is_zero empty_is_zero_bigint
             two_objects_to_primitive (Ref empty_array)); reflexivity.
  - apply (isEmptyString_accepts empty_is_zero empty_is_zero_bigint
             two_objects_to_primitive (Ref empty_array)); [reflexivity | reflexivity |].
    exists (PValue (VString EmptyString)). split; [reflexivity | left; reflexivity].
  - apply (isEmptyString_accepts empty_is_zero empty_is_zero_bigint
             two_objects_to_primitive (Ref thrower)); [reflexivity | reflexivity |].
    exists thrower. split; reflexivity.
Defined.

(** *** Ternaries *)

Lemma ToBoolean_logical_and (a b : value) :
  ToBoolean (logical_and a b) = ToBoolean a && ToBoolean b.
Proof. unfold logical_and. destruct (ToBoolean a) eqn:Ha; [reflexivity | exact Ha]. Qed.

(** X2.  [calculate] returns the number whose tens digit tells
    whether [a] is truthy and whose units digit tells whether [b] is;
    so two calls return the same number exactly when their arguments
    agree in truthiness. *)
Theorem calculate_digits (a b a' b' : value) :
  calculate a b
    = VNumber (of_Z (10 * Z.b2z (ToBoolean a) + Z.b2z (ToBoolean b)))
  /\ (calculate a b = calculate a' b' <->
        ToBoolean a = ToBoolean a' /\ ToBoolean b = ToBoolean b').
Proof.
  assert (H : forall x y, calculate x y
            = VNumber (of_Z (10 * Z.b2z (ToBoolean x) + Z.b2z (ToBoolean y)))).
  { intros x y. unfold calculate. rewrite ToBoolean_logical_and.
    destruct (ToBoolean x), (ToBoolean y); reflexivity. }
  split; [apply H |]. rewrite !H.
  destruct (ToBoolean a), (ToBoolean b), (ToBoolean a'), (ToBoolean b');
    split; try (intros [? ?]; discriminate); try (intros H'; discriminate H');
    try (intros _; split; reflexivity); intros _; reflexivity.
Qed.



(** *** Conditionals *)

(** X4.  The nested tests and the guard clauses compute the same
    function: "batman!" when all three values are truthy, [undefined]
    otherwise. *)
Theorem guard_clauses_agree (car black turbine : value) :
  batman_guarded car black turbine = batman_nested car black turbine
  /\ (batman_guarded car black turbine = VString "batman!" <->
        ToBoolean car = true /\ ToBoolean black = true /\ ToBoolean turbine = true)
  /\ (batman_guarded car black turbine = VString "batman!"
      \/ batman_guarded car black turbine = VUndefined).
Proof.
  unfold batman_guarded, batman_nested.
  destruct (ToBoolean car), (ToBoolean black), (ToBoolean turbine); simpl;
    repeat split; auto; try discriminate; try (intros (? & ? & ?); discriminate).
Qed.

(** *** Strings *)

Lemma append_cons (c : ascii) (a b : string) :
  String c a +:+ b = String c (a +:+ b).
Proof. reflexivity. Qed.

Lemma append_nil (b : string) : EmptyString +:+ b = b.
Proof. reflexivity. Qed.

Lemma append_assoc (a b c : string) : (a +:+ b) +:+ c = a +:+ (b +:+ c).
Proof.
  induction a as [| x a IH]; [reflexivity |].
  rewrite !append_cons, IH. reflexivity.
Qed.

Lemma length_append (a b : string) :
  String.length (a +:+ b) = String.length a + String.length b.
Proof.
  induction a as [| x a IH]; [reflexivity |].
  rewrite append_cons. simpl. rewrite IH. reflexivity.
Qed.

Lemma substring_0_length (s : string) : String.substring 0 (String.length s) s = s.
Proof. induction s as [| x s IH]; simpl; [| rewrite IH]; reflexivity. Qed.

Lemma substring_0_append (a b : string) :
  String.substring 0 (String.length a) (a +:+ b) = a.
Proof.
  induction a as [| x a IH].
  - rewrite append_nil. destruct b; reflexivity.
  - rewrite append_cons. simpl. rewrite IH. reflexivity.
Qed.

Lemma substring_skip_append (a b : string) (n m : nat) :
  String.substring (String.length a + n) m (a +:+ b) = String.substring n m b.
Proof.
  induction a as [| x a IH]; [reflexivity |].
  rewrite append_cons. simpl. exact IH.
Qed.

Lemma length_substring_0 (s : string) (n : nat) :
  n <= String.length s -> String.length (String.substring 0 n s) = n.
Proof.
  revert n. induction s as [| x s IH]; intros n Hn; simpl in Hn.
  - assert (n = 0) by lia. subst n. reflexivity.
  - destruct n as [| n]; [reflexivity |]. simpl. rewrite IH by lia. reflexivity.
Qed.

Lemma prefix_substring_0 (s : string) (n : nat) :
  n <= String.length s -> String.prefix (String.substring 0 n s) s = true.
Proof.
  intros Hn. apply String.prefix_correct. rewrite length_substring_0 by exact Hn.
  reflexivity.
Qed.

(** X5.  [half] returns the first half of its text, rounded down: a
    prefix of the text of half its length.  Of a text made of two
    parts of equal length, or with the second part one longer, it
    returns the first part. *)
Theorem half_first_part (text : string) :
  String.length (half text) = String.length text / 2
  /\ String.prefix (half text) text = true
  /\ (forall a b, text = a +:+ b ->
        String.length b = String.length a \/ String.length b = S (String.length a) ->
        half text = a).
Proof.
  assert (Hle : String.length text / 2 <= String.length text)
    by (apply Nat.Div0.div_le_upper_bound; lia).
  split; [apply length_substring_0, Hle |].
  split; [apply prefix_substring_0, Hle |].
  intros a b -> Hb. unfold half. rewrite length_append.
  assert (Hhalf : (String.length a + String.length b) / 2 = String.length a).
  { symmetry. apply (Nat.div_unique _ 2 _ (String.length b - String.length a)); lia. }
  rewrite Hhalf. apply substring_0_append.
Qed.

Lemma half_first_part_witness :
  String.length (half "nananana") = String.length "nananana" / 2
  /\ String.prefix (half "nananana") "nananana" = true
  /\ (forall a b, "nananana" = a +:+ b ->
        String.length b = String.length a \/ String.length b = S (String.length a) ->
        half "nananana" = a).
Proof. apply (half_first_part "nananana"). Defined.

(** *** [format] and its caller *)

Lemma prefix_cons (x y : ascii) (s1 s2 : string) :
  String.prefix (String x s1) (String y s2)
  = if ascii_dec x y then String.prefix s1 s2 else false.
Proof. reflexivity. Qed.

Lemma prefix_placeholder (c : ascii) (rest : string) :
  String.prefix "%s" (String c rest) = true <->
  c = "%"%char /\ exists rest', rest = String "s" rest'.
Proof.
  rewrite prefix_cons. destruct (ascii_dec "%" c) as [Hc | Hc].
  - destruct rest as [| d rest'].
    + split; [discriminate | intros [_ [r H]]; discriminate H].
    + rewrite prefix_cons. destruct (ascii_dec "s" d) as [Hd | Hd].
      * split; [intros _; split; [congruence | exists rest'; congruence] |].
        intros _. destruct rest'; reflexivity.
      * split; [discriminate | intros [_ [r H]]]. injection H as H1 _. congruence.
  - split; [discriminate | intros [H _]; congruence].
Qed.

Lemma index_cons (c : ascii) (text : string) :
  String.index 0 "%s" (String c text) =
    if String.prefix "%s" (String c text) then Some 0
    else match String.index 0 "%s" text with
         | Some n => Some (S n)
         | None => None
         end.
Proof. reflexivity. Qed.

(** Where the first placeholder is, when the text before it holds
    none. *)
Lemma index_first_placeholder (a b : string) :
  String.index 0 "%s" a = None ->
  String.index 0 "%s" (a +:+ "%s" +:+ b) = Some (String.length a).
Proof.
  induction a as [| c a IH]; intros Ha.
  - rewrite append_nil. change ("%s" +:+ b) with (String "%" (String "s" b)).
    rewrite index_cons.
    rewrite (proj2 (prefix_placeholder "%" (String "s" b))); [reflexivity |].
    split; [reflexivity | exists b; reflexivity].
  - rewrite index_cons in Ha. rewrite append_cons, index_cons.
    destruct (String.prefix "%s" (String c a)) eqn:Hp; [discriminate |].
    destruct (String.index 0 "%s" a) as [n |] eqn:Hi; [discriminate |].
    rewrite (IH eq_refl).
    destruct (String.prefix "%s" (String c (a +:+ "%s" +:+ b))) eqn:Hq; [| reflexivity].
    exfalso. apply prefix_placeholder in Hq as [-> [rest' Hrest]].
    destruct a as [| d a'].
    + discriminate Hrest.
    + rewrite append_cons in Hrest. injection Hrest as -> _.
      assert (String.prefix "%s" (String "%" (String "s" a')) = true); [| congruence].
      apply prefix_placeholder. split; [reflexivity | exists a'; reflexivity].
Qed.

(** Replacing the first placeholder of [a%sb], when [a] holds none,
    puts the replacement between [a] and [b]. *)
Lemma replace_first_placeholder (a b r : string) :
  String.index 0 "%s" a = None ->
  Format.spec_replace_first (a +:+ "%s" +:+ b) r = a +:+ r +:+ b.
Proof.
  intros Ha. unfold Format.spec_replace_first. rewrite (index_first_placeholder a b Ha).
  rewrite substring_0_append.
  rewrite (substring_skip_append a ("%s" +:+ b) 2).
  rewrite length_append.
  change (String.length ("%s" +:+ b)) with (S (S (String.length b))).
  replace (String.length a + S (S (String.length b)) - (String.length a + 2))
    with (String.length b) by lia.
  change (String.substring 2 (String.length b) ("%s" +:+ b))
    with (String.substring 0 (String.length b) b).
  rewrite substring_0_length. reflexivity.
Qed.



(** X7.  Without a placeholder in the text, [format] returns the text
    as it is, whatever the further arguments are. *)
Theorem format_without_placeholder (initial : string) (args : list string) :
  String.index 0 "%s" initial = None ->
  Format.format initial args = initial.
Proof.
  intros H. unfold Format.format. induction args as [| r args IH]; [reflexivity |].
  cbn [fold_left]. rewrite (FormatFacts.replacer_no_placeholder initial r H). exact IH.
Qed.

Lemma format_without_placeholder_witness :
  Format.format "oh hai!" ["$&"; "%s"] = "oh hai!".
Proof. apply (format_without_placeholder "oh hai!" ["$&"; "%s"]). reflexivity. Defined.

(** X8.  The markup snippet puts a name that holds no [$] between the
    tags as it is, markup in the name included. *)
Theorem html_wraps_name (name : string) :
  Format.dollar_free name = true ->
  html name
  = "<div><span class=" +:+ double_quote +:+ "monster" +:+ double_quote +:+ ">"
      +:+ name +:+ "</span></div>".
Proof.
  intros Hname. unfold html, join.
  change monster_template
    with (("<span class=" +:+ double_quote +:+ "monster" +:+ double_quote +:+ ">")
            +:+ "%s" +:+ "</span>").
  unfold Format.format. cbn [fold_left].
  rewrite (FormatFacts.replacer_dollar_free _ name Hname).
  rewrite (replace_first_placeholder
             ("<span class=" +:+ double_quote +:+ "monster" +:+ double_quote +:+ ">")
             "</span>" name) by (vm_compute; reflexivity).
  cbn [String.concat].
  rewrite !append_assoc. reflexivity.
Qed.

Lemma html_wraps_name_witness :
  html "<b>Gozilla</b>"
  = "<div><span class=" +:+ double_quote +:+ "monster" +:+ double_quote +:+ ">"
      +:+ "<b>Gozilla</b>" +:+ "</span></div>".
Proof. apply (html_wraps_name "<b>Gozilla</b>"). reflexivity. Defined.

(** *** Loops *)

(** A loop whose condition is [i < n] on every state it reaches ends
    with [i = n], given fuel for the remaining rounds, and keeps what
    its body keeps. *)
Lemma for_loop_invariant {S : Type} (Inv : nat -> S -> Prop) (n : nat)
      (cond : nat -> S -> bool) (body : nat -> S -> S) :
  (forall i s, Inv i s -> cond i s = Nat.ltb i n) ->
  (forall i s, i < n -> Inv i s -> Inv (Datatypes.S i) (body i s)) ->
  forall fuel i s,
    Inv i s -> i <= n -> n - i <= fuel ->
    exists s', for_loop fuel cond body i s = Some (n, s') /\ Inv n s'.
Proof.
  intros Hcond Hbody fuel. induction fuel as [| fuel IH]; intros i s Hinv Hle Hfuel.
  - assert (i = n) by lia. subst i. exists s. simpl.
    rewrite (Hcond _ _ Hinv), Nat.ltb_irrefl. auto.
  - simpl. rewrite (Hcond _ _ Hinv). destruct (Nat.ltb_spec i n) as [Hlt | Hge].
    + apply IH; [apply Hbody; assumption | lia | lia].
    + assert (i = n) by lia. subst i. exists s. auto.
Qed.

Lemma argument_lookup (args : list value) (i : nat) (v : value) :
  args !! i = Some v -> argument args i = v.
Proof. intros H. unfold argument. rewrite H. reflexivity. Qed.

(** X9.  Given fuel for one round per argument, the index loop ends
    and returns an array without holes that holds the arguments in
    order: the array that [[].slice.call(arguments)] returns. *)
Theorem copy_arguments_is_slice (fuel : nat) (arguments : list value) :
  length arguments <= fuel ->
  copy_arguments fuel arguments = Some (slice_call arguments)
  /\ (forall i, array_get (slice_call arguments) i = argument arguments i).
Proof.
  intros Hfuel. split.
  - unfold copy_arguments, new_Array, slice_call.
    set (n := length arguments).
    destruct (for_loop_invariant
                (fun i (args : list (option value)) =>
                   i <= n /\ args = (Some <$> take i arguments) ++ replicate (n - i) None)
                n
                (fun i (args : list (option value)) => Nat.ltb i (length args))
                (fun i (args : list (option value)) => <[i := Some (argument arguments i)]> args))
      with (fuel := fuel) (i := 0) (s := replicate n (@None value))
      as (args' & -> & _ & Hargs).
    + intros i args [Hi ->]. f_equal.
      rewrite length_app, length_fmap, length_take, length_replicate. unfold n. lia.
    + intros i args Hlt [_ ->]. split; [lia |].
      destruct (lookup_lt_is_Some_2 arguments i Hlt) as [v Hv].
      rewrite (argument_lookup _ _ _ Hv).
      rewrite insert_app_r_alt
        by (rewrite length_fmap, length_take; unfold n; lia).
      rewrite length_fmap, length_take.
      replace (i - i `min` length arguments) with 0 by (unfold n in Hlt; lia).
      replace (n - i) with (Datatypes.S (n - Datatypes.S i)) by lia.
      cbn [replicate]. rewrite (take_S_r _ _ _ Hv), fmap_app, <- app_assoc.
      reflexivity.
    + split; [lia |]. rewrite Nat.sub_0_r. reflexivity.
    + lia.
    + lia.
    + rewrite Hargs, Nat.sub_diag, app_nil_r. unfold n. rewrite firstn_all. reflexivity.
  - intros i. unfold array_get, slice_call, argument, array. rewrite list_lookup_fmap.
    destruct (arguments !! i); reflexivity.
Qed.

Lemma copy_arguments_is_slice_witness :
  copy_arguments 2 [VNull; VBool true] = Some (slice_call [VNull; VBool true])
  /\ (forall i, array_get (slice_call [VNull; VBool true]) i
                = argument [VNull; VBool true] i).
Proof. apply (copy_arguments_is_slice 2 [VNull; VBool true]). simpl. lia. Defined.

(** *** Timers *)

Lemma schedule_last (t : timer) (queue : list timer) :
  Forall (fun u => timeout u <= timeout t) queue ->
  schedule t queue = queue ++ [t].
Proof.
  induction 1 as [| u queue Hu _ IH]; [reflexivity |].
  simpl. destruct (Nat.ltb_spec (timeout t) (timeout u)); [lia |].
  rewrite IH. reflexivity.
Qed.

(** The timers the loops set: one per index, in order. *)
Lemma loop_sets_timers (mk : nat -> callback * list nat) (values : list value)
      (fuel : nat) :
  length values <= fuel ->
  for_loop fuel (in_range values)
           (fun i queue => setTimeout (fst (mk i)) (1000 * i) (snd (mk i)) queue) 0 []
  = Some (length values,
          List.map (fun j => {| timeout := 1000 * j; callee := fst (mk j);
                                extra := snd (mk j) |})
                   (seq 0 (length values))).
Proof.
  intros Hfuel.
  set (T := fun j => {| timeout := 1000 * j; callee := fst (mk j); extra := snd (mk j) |}).
  destruct (for_loop_invariant
              (fun i (queue : list timer) => queue = List.map T (seq 0 i))
              (length values) (in_range values)
              (fun i queue => setTimeout (fst (mk i)) (1000 * i) (snd (mk i)) queue))
    with (fuel := fuel) (i := 0) (s := @nil timer) as (queue & -> & ->).
  - reflexivity.
  - intros i queue _ ->. unfold setTimeout. fold (T i).
    rewrite schedule_last.
    + rewrite seq_S, List.map_app. reflexivity.
    + apply List.Forall_forall. intros u Hu. apply in_map_iff in Hu as (j & <- & Hj).
      apply in_seq in Hj. simpl. lia.
  - reflexivity.
  - lia.
  - lia.
  - reflexivity.
Qed.

Lemma values_at_seq (values : list value) :
  List.map (values_at values) (seq 0 (length values)) = values.
Proof.
  apply list_eq. intros i. rewrite list_lookup_fmap.
  destruct (values !! i) as [v |] eqn:Hv.
  - rewrite (lookup_seq_lt 0 _ i) by (apply lookup_lt_Some in Hv; exact Hv).
    simpl. unfold values_at. rewrite Hv. reflexivity.
  - rewrite lookup_seq_ge by (apply lookup_ge_None in Hv; exact Hv). reflexivity.
Qed.

(** X10.  The callback that reads the loop's own variable sees it
    after the loop has ended: given fuel for the loop, the script
    logs [undefined] once per element, whatever the elements are. *)
Theorem loop_shared_logs_undefined (fuel : nat) (values : list value) :
  length values <= fuel ->
  loop_shared fuel values = Some (replicate (length values) VUndefined).
Proof.
  intros Hfuel. unfold loop_shared.
  pose proof (loop_sets_timers (fun _ => (ReadShared, [])) values fuel Hfuel) as H.
  cbn [fst snd] in H. rewrite H. clear H.
  f_equal. unfold drain. rewrite List.map_map. unfold fire. simpl.
  unfold values_at. rewrite lookup_ge_None_2 by lia. simpl.
  assert (Hc : forall n k, List.map (fun _ : nat => VUndefined) (seq k n)
                           = replicate n VUndefined).
  { induction n as [| n IH]; intros k; simpl; [| rewrite IH]; reflexivity. }
  apply Hc.
Qed.

Lemma loop_shared_logs_undefined_witness :
  loop_shared 3 [VNumber (of_Z 1); VNumber (of_Z 2); VNumber (of_Z 3)]
  = Some (replicate 3 VUndefined).
Proof.
  apply (loop_shared_logs_undefined 3 [VNumber (of_Z 1); VNumber (of_Z 2); VNumber (of_Z 3)]).
  simpl. lia.
Defined.

Lemma forEach_queue (ws : list value) (j : nat) (queue : list timer) :
  Forall (fun u => timeout u <= 1000 * j) queue ->
  foldl (fun queue '(i, v) => setTimeout (LogValue v) (1000 * i) [] queue)
        queue (imap (fun i v => (j + i, v)) ws)
  = queue ++ imap (fun i w => {| timeout := 1000 * (j + i);
                                 callee := LogValue w; extra := [] |}) ws.
Proof.
  revert j queue. induction ws as [| w ws IH]; intros j queue Hq.
  - simpl. rewrite app_nil_r. reflexivity.
  - cbn [imap foldl]. unfold setTimeout at 2. rewrite schedule_last.
    + rewrite (imap_ext _ (fun i v => (Datatypes.S j + i, v)) ws).
      2:{ intros i x _. unfold compose. cbv beta. f_equal. clear. lia. }
      rewrite IH.
      * rewrite <- app_assoc. cbn [app]. do 2 f_equal.
        apply imap_ext. intros i x _. unfold compose. cbv beta. do 2 f_equal. clear. lia.
      * apply Forall_app. split.
        -- eapply Forall_impl; [exact Hq |]. cbv beta. intros u Hu. lia.
        -- constructor; [cbn [timeout]; lia | constructor].
    + eapply Forall_impl; [exact Hq |]. cbv beta. intros u Hu. cbn [timeout]. lia.
Qed.

Lemma forEach_fires (values ws : list value) (j : nat) :
  List.map (fire values 0)
           (imap (fun i w => {| timeout := 1000 * (j + i);
                                callee := LogValue w; extra := [] |}) ws)
  = ws.
Proof.
  revert j. induction ws as [| w ws IH]; intros j; [reflexivity |].
  cbn [imap List.map]. unfold fire at 1. cbn [callee]. f_equal.
  rewrite (imap_ext _ (fun i w0 => {| timeout := 1000 * (Datatypes.S j + i);
                                       callee := LogValue w0; extra := [] |}) ws).
  - apply IH.
  - intros i x _. unfold compose. cbv beta. do 2 f_equal. clear. lia.
Qed.

(** X11.  Each of the four remedies logs the elements themselves, in
    order: the closure over a parameter, the extra argument of
    [setTimeout], the function [wait], and [forEach]. *)
Theorem loop_remedies_log_values (fuel : nat) (values : list value) :
  length values <= fuel ->
  loop_captured fuel values = Some values
  /\ loop_parameter fuel values = Some values
  /\ loop_wait fuel values = Some values
  /\ forEach_timers values = values.
Proof.
  intros Hfuel. repeat split.
  - unfold loop_captured.
    pose proof (loop_sets_timers (fun i => (ReadCaptured i, [])) values fuel Hfuel) as H.
    cbn [fst snd] in H. rewrite H. clear H.
    f_equal. unfold drain. rewrite List.map_map. apply values_at_seq.
  - unfold loop_parameter.
    pose proof (loop_sets_timers (fun i => (ReadParameter, [i])) values fuel Hfuel) as H.
    cbn [fst snd] in H. rewrite H. clear H.
    f_equal. unfold drain. rewrite List.map_map. apply values_at_seq.
  - unfold loop_wait, wait.
    pose proof (loop_sets_timers (fun i => (ReadCaptured i, [])) values fuel Hfuel) as H.
    cbn [fst snd] in H. rewrite H. clear H.
    f_equal. unfold drain. rewrite List.map_map. apply values_at_seq.
  - unfold forEach_timers.
    change (imap (fun i v => (i, v)) values) with (imap (fun i v => (0 + i, v)) values).
    rewrite (forEach_queue values 0 []) by constructor.
    apply forEach_fires.
Qed.

Lemma loop_remedies_log_values_witness :
  loop_captured 3 [VNumber (of_Z 1); VNumber (of_Z 2); VNumber (of_Z 3)]
    = Some [VNumber (of_Z 1); VNumber (of_Z 2); VNumber (of_Z 3)]
  /\ loop_parameter 3 [VNumber (of_Z 1); VNumber (of_Z 2); VNumber (of_Z 3)]
    = Some [VNumber (of_Z 1); VNumber (of_Z 2); VNumber (of_Z 3)]
  /\ loop_wait 3 [VNumber (of_Z 1); VNumber (of_Z 2); VNumber (of_Z 3)]
    = Some [VNumber (of_Z 1); VNumber (of_Z 2); VNumber (of_Z 3)]
  /\ forEach_timers [VNumber (of_Z 1); VNumber (of_Z 2); VNumber (of_Z 3)]
    = [VNumber (of_Z 1); VNumber (of_Z 2); VNumber (of_Z 3)].
Proof.
  apply (loop_remedies_log_values 3
           [VNumber (of_Z 1); VNumber (of_Z 2); VNumber (of_Z 3)]).
  simpl. lia.
Defined.

(** *** [sum] and its bound versions *)

Section sum_facts.
Variable stn : string -> number.
Variable nts : number -> string.

(** X12.  On integers that Numbers hold exactly (magnitude at most
    2^53), with a sum that is such an integer too, [sum] is the sum
    of the integers. *)
Theorem sum_of_integers (a b : Z) :
  (- 2 ^ 53 <= a <= 2 ^ 53)%Z -> (- 2 ^ 53 <= b <= 2 ^ 53)%Z ->
  (- 2 ^ 53 <= a + b <= 2 ^ 53)%Z ->
  sum stn nts (VNumber (of_Z a)) (VNumber (of_Z b)) = VNumber (of_Z (a + b)).
Proof.
  intros Ha Hb Hab. unfold sum, plus. cbn [ToNumber].
  rewrite NumberFacts.Number_add_exact by assumption. reflexivity.
Qed.

(** X13.  [sum] does not depend on the order of its arguments when
    neither is a string, whatever the two conversions are. *)
Theorem sum_commutes_without_strings (x y : value) :
  is_string x = false -> is_string y = false ->
  sum stn nts x y = sum stn nts y x.
Proof.
  intros Hx Hy. unfold sum, plus.
  destruct x, y; try discriminate; f_equal; apply NumberFacts.Number_add_comm.
Qed.

(** X14.  The bound versions add their number to the first argument
    of the call and ignore the others; called without an argument they
    return [NaN]. *)
Theorem bound_sum_adds (n : Z) (rest : list value) :
  (- 2 ^ 53 <= n)%Z -> (n + 7 <= 2 ^ 53)%Z ->
  addSeven stn nts (VNumber (of_Z n) :: rest) = VNumber (of_Z (7 + n))
  /\ plusThree stn nts (VNumber (of_Z n) :: rest) = VNumber (of_Z (3 + n))
  /\ addSeven stn nts [] = VNumber S754_nan
  /\ plusThree stn nts [] = VNumber S754_nan.
Proof.
  intros Hlo Hhi. unfold addSeven, plusThree, bind, sum_call. cbn [app argument].
  repeat split; try reflexivity.
  - change (VNumber (Number_add (of_Z 7) (of_Z n)) = VNumber (of_Z (7 + n))).
    f_equal. apply NumberFacts.Number_add_exact; [vm_compute; split; discriminate | lia | lia].
  - change (VNumber (Number_add (of_Z 3) (of_Z n)) = VNumber (of_Z (3 + n))).
    f_equal. apply NumberFacts.Number_add_exact; [vm_compute; split; discriminate | lia | lia].
Qed.
End sum_facts.

Lemma sum_of_integers_witness :
  sum no_numeral (fun _ => EmptyString) (VNumber (of_Z 1)) (VNumber (of_Z 3))
  = VNumber (of_Z (1 + 3)).
Proof.
  apply (sum_of_integers no_numeral (fun _ => EmptyString) 1 3);
    vm_compute; split; discriminate.
Defined.

Lemma sum_commutes_without_strings_witness :
  sum no_numeral (fun _ => EmptyString) VNull (VBool true)
  = sum no_numeral (fun _ => EmptyString) (VBool true) VNull.
Proof.
  apply (sum_commutes_without_strings no_numeral (fun _ => EmptyString)
           VNull (VBool true)); reflexivity.
Defined.

Lemma bound_sum_adds_witness :
  addSeven no_numeral (fun _ => EmptyString) [VNumber (of_Z 6)] = VNumber (of_Z (7 + 6))
  /\ plusThree no_numeral (fun _ => EmptyString) [VNumber (of_Z 6)] = VNumber (of_Z (3 + 6))
  /\ addSeven no_numeral (fun _ => EmptyString) [] = VNumber S754_nan
  /\ plusThree no_numeral (fun _ => EmptyString) [] = VNumber S754_nan.
Proof.
  apply (bound_sum_adds no_numeral (fun _ => EmptyString) 6 []);
    vm_compute; discriminate.
Defined.

(** *** A way round the reading of [$] *)

Lemma GetSubstitution_double_dollars (m a b r : string) :
  Format.GetSubstitution m a b (double_dollars r) = r.
Proof.
  induction r as [| c rest IH]; [reflexivity |]. cbn [double_dollars].
  destruct (Ascii.eqb c "$") eqn:Hc.
  - apply Ascii.eqb_eq in Hc. subst c.
    change (Format.GetSubstitution m a b (String "$" (String "$" (double_dollars rest))))
      with (String "$" (Format.GetSubstitution m a b (double_dollars rest))).
    rewrite IH. reflexivity.
  - rewrite (FormatFacts.GetSubstitution_other _ _ _ _ _ Hc), IH. reflexivity.
Qed.

(** X15.  An argument in which every [$] is written twice is inserted
    with its [$] signs single: for a text [a%sb] in which [a] holds no
    placeholder, [format(a%sb, r with doubled $)] is [arb], whatever
    [r] is. *)
Theorem format_doubled_dollars (a b r : string) :
  String.index 0 "%s" a = None ->
  Format.format (a +:+ "%s" +:+ b) [double_dollars r] = a +:+ r +:+ b.
Proof.
  intros Ha. unfold Format.format. cbn [fold_left].
  unfold Format.replacer, Format.replace.
  rewrite (index_first_placeholder a b Ha), GetSubstitution_double_dollars.
  rewrite substring_0_append.
  change (String.length "%s") with 2.
  rewrite (substring_skip_append a ("%s" +:+ b) 2), length_append.
  change (String.length ("%s" +:+ b)) with (S (S (String.length b))).
  replace (String.length a + S (S (String.length b)) - (String.length a + 2))
    with (String.length b) by lia.
  change (String.substring 2 (String.length b) ("%s" +:+ b))
    with (String.substring 0 (String.length b) b).
  rewrite substring_0_length. reflexivity.
Qed.

Lemma format_doubled_dollars_witness :
  Format.format ("cost: " +:+ "%s" +:+ "!") [double_dollars "$$5 & $&"]
  = "cost: " +:+ "$$5 & $&" +:+ "!".
Proof. apply (format_doubled_dollars "cost: " "!" "$$5 & $&"). reflexivity. Defined.

(** *** The test for digits *)

Lemma digits_at_start_Some (s : string) :
  (exists n, digits_at_start s = Some n) <->
  exists c rest, s = String c rest /\ is_digit c = true.
Proof.
  destruct s as [| c rest]; cbn [digits_at_start].
  - split; [intros [n H]; discriminate H | intros (c & rest & H & _); discriminate H].
  - destruct (is_digit c) eqn:Hc.
    + split; [intros _; exists c, rest; auto |].
      intros _. destruct (digits_at_start rest); eauto.
    + split; [intros [n H]; discriminate H |].
      intros (c' & rest' & H & Hd). injection H as <- <-. congruence.
Qed.

(** X16.  The test holds exactly for the texts that hold a decimal
    digit somewhere; one digit is enough for the snippet to log its
    line. *)
Theorem numeric_test_finds_digit (text : string) :
  (numeric_test text = true <->
     exists a c b, text = a +:+ String c b /\ is_digit c = true)
  /\ (log_if_numeric text = ["so many numbers!"] <->
        exists a c b, text = a +:+ String c b /\ is_digit c = true).
Proof.
  assert (H : numeric_test text = true <->
              exists a c b, text = a +:+ String c b /\ is_digit c = true).
  { induction text as [| x text IH].
    - split; [discriminate |]. intros (a & c & b & H & _).
      destruct a; discriminate H.
    - cbn [numeric_test]. destruct (digits_at_start (String x text)) as [n |] eqn:Hd.
      + split; [intros _ | reflexivity].
        destruct (proj1 (digits_at_start_Some (String x text)) (ex_intro _ n Hd))
          as (c & rest & Hs & Hc).
        exists EmptyString, c, rest. auto.
      + rewrite IH. split.
        * intros (a & c & b & -> & Hc). exists (String x a), c, b. auto.
        * intros (a & c & b & Hs & Hc). destruct a as [| y a].
          -- exfalso. rewrite append_nil in Hs.
             destruct (proj2 (digits_at_start_Some (String x text))) as [n Hn];
               [exists c, b; auto | congruence].
          -- rewrite append_cons in Hs. injection Hs as -> ->. exists a, c, b. auto. }
  split; [exact H |]. rewrite <- H. unfold log_if_numeric.
  destruct (numeric_test text); split; try reflexivity; discriminate.
Qed.

End GuideFacts.

(** ** More about [util] *)

Module UtilMore.
Import JS Util UtilFacts.

Lemma calls_fixed (stn : string -> number) (x : number) (k : nat) :
  Number_add x (of_Z 1) = x ->
  calls stn k {| foo := VNumber x |} = replicate k (VNumber x).
Proof.
  intros Hx. induction k as [| k IH]; [reflexivity |].
  cbn [calls uuid add foo ToNumber replicate]. rewrite Hx, IH. reflexivity.
Qed.

(** X17.  When the Number of a truthy start does not change by adding
    one, every call of [uuid] returns that same Number.  That is so
    for 2^53, for the infinities and for [NaN] (the Number of a start
    that is not numeric). *)
Theorem uuid_stays (stn : string -> number) (options : object) (k : nat) :
  ToBoolean (get options "start") = true ->
  Number_add (ToNumber stn (get options "start")) (of_Z 1)
    = ToNumber stn (get options "start") ->
  calls stn k (util options)
    = replicate k (VNumber (ToNumber stn (get options "start")))
  /\ Number_add two_pow_53 (of_Z 1) = two_pow_53
  /\ (forall s, Number_add (S754_infinity s) (of_Z 1) = S754_infinity s)
  /\ Number_add S754_nan (of_Z 1) = S754_nan.
Proof.
  intros Ht Hx. split; [| repeat split; try (intros []); reflexivity].
  unfold util, reset. rewrite Ht. destruct k as [| k]; [reflexivity |].
  cbn [calls uuid add foo replicate]. rewrite Hx, calls_fixed by exact Hx. reflexivity.
Qed.

(** A conversion under which "many" is no numeral. *)
Lemma uuid_stays_witness :
  calls no_numeral 4 (util {[ "start" := VString "many" ]})
    = replicate 4 (VNumber (ToNumber no_numeral
                              (get {[ "start" := VString "many" ]} "start")))
  /\ Number_add two_pow_53 (of_Z 1) = two_pow_53
  /\ (forall s, Number_add (S754_infinity s) (of_Z 1) = S754_infinity s)
  /\ Number_add S754_nan (of_Z 1) = S754_nan.
Proof.
  apply (uuid_stays no_numeral {[ "start" := VString "many" ]} 4); reflexivity.
Defined.

End UtilMore.

(** ** More about the navigation snippet *)

Module NavMore.
Import Dom DomFacts Nav NavFacts.

(** X18.  After setup on a freshly loaded page, a click on an element
    whose propagation path holds no matched anchor runs no listener
    of this code: nothing is alerted and the default action is not
    prevented.  The click completes, and the page is as before unless
    the default action of the browser is a navigation. *)
Theorem click_outside_navigation (doc : node) (url : string) (t : node_id)
        (path : list node) :
  NoDup (ids doc) ->
  event_path t doc = Some path ->
  (forall j name h kids,
      Element j name h kids ∈ path -> j ∉ querySelectorAll nav_a doc) ->
  triggered t (setup (load doc url)) = []
  /\ exists p', click t (setup (load doc url)) = Some p'
                /\ (p' = setup (load doc url)
                    \/ exists target, p' = navigate target (setup (load doc url))).
Proof.
  intros Hnd Hpath Hout.
  pose proof (setup_well_formed _ (load_well_formed doc url Hnd)) as Hwf.
  assert (Hdoc : document (setup (load doc url)) = doc).
  { rewrite (setup_registry _ (load_well_formed doc url Hnd)). reflexivity. }
  assert (Hpath' : event_path t (document (setup (load doc url))) = Some path)
    by (rewrite Hdoc; exact Hpath).
  assert (Htr : triggered t (setup (load doc url)) = []).
  { unfold triggered. rewrite Hpath'. apply invoked_none.
    intros j name h kids Hj.
    apply (proj2 (listeners_of_fresh doc url j Hnd)), (Hout j name h kids Hj). }
  split; [exact Htr |].
  rewrite (click_result t _ path Hwf Hpath'). cbn zeta.
  rewrite Htr. cbn [List.map concat]. rewrite extend_nil.
  rewrite bool_decide_eq_true_2 by reflexivity. cbn [negb].
  destruct (activation_target path) as [target |]; eexists; split; try reflexivity; eauto.
Qed.

Lemma click_outside_navigation_witness :
  triggered 5 (setup (load sample "index.html")) = []
  /\ exists p', click 5 (setup (load sample "index.html")) = Some p'
                /\ (p' = setup (load sample "index.html")
                    \/ exists target,
                         p' = navigate target (setup (load sample "index.html"))).
Proof.
  apply (click_outside_navigation sample "index.html" 5
           [Element 5 "a" (Some "/out") [Text "Out"]; sample] sample_NoDup eq_refl).
  intros j name h kids Hj. apply list_elem_of_In in Hj. simpl in Hj.
  destruct Hj as [Hj | [Hj | []]]; injection Hj as <- _ _ _; not_in_list.
Defined.

(** X19.  After setup on a freshly loaded page, a click on a matched
    anchor that lies in no other matched anchor shows exactly one
    alert, and nothing else happens. *)
Theorem click_alerts_once (doc : node) (url : string) (t : node_id)
        (el : node) (rest : list node) :
  NoDup (ids doc) ->
  t ∈ querySelectorAll nav_a doc ->
  event_path t doc = Some (el :: rest) ->
  (forall j name h kids,
      Element j name h kids ∈ rest -> j ∉ querySelectorAll nav_a doc) ->
  click t (setup (load doc url))
  = Some (extend (setup (load doc url))
            [PreventDefault; Alert ("You clicked on " +:+ textContent el)]).
Proof.
  intros Hnd Ht Hpath Hout.
  pose proof (setup_well_formed _ (load_well_formed doc url Hnd)) as Hwf.
  assert (Hdoc : document (setup (load doc url)) = doc).
  { rewrite (setup_registry _ (load_well_formed doc url Hnd)). reflexivity. }
  assert (Hpath' : event_path t (document (setup (load doc url))) = Some (el :: rest))
    by (rewrite Hdoc; exact Hpath).
  destruct (event_path_is_Some t doc (querySelectorAll_ids _ _ _ Ht))
    as (name & h & kids & rest' & Hp & Hfind).
  rewrite Hpath in Hp. injection Hp as -> ->.
  destruct (proj1 (listeners_of_fresh doc url t Hnd) Ht) as [g Hg].
  rewrite (click_result t _ _ Hwf Hpath'). cbn zeta.
  assert (Htr : triggered t (setup (load doc url)) = [click_listener g t]).
  { unfold triggered. rewrite Hpath'. unfold invoked. cbn [List.map concat].
    rewrite Hg. fold (invoked rest' (registry (setup (load doc url)))).
    rewrite invoked_none; [reflexivity |].
    intros j name' h' kids' Hj.
    apply (proj2 (listeners_of_fresh doc url j Hnd)), (Hout j name' h' kids' Hj). }
  rewrite Htr. rewrite bool_decide_eq_false_2 by discriminate. cbn [negb].
  cbn [List.map concat]. unfold handler_effects. cbn [click_listener l_callback link].
  unfold textContent_of. rewrite Hdoc, Hfind. rewrite app_nil_r. reflexivity.
Qed.

Lemma click_alerts_once_witness :
  click 2 (setup (load sample "index.html"))
  = Some (extend (setup (load sample "index.html"))
            [PreventDefault;
             Alert ("You clicked on " +:+ textContent (Element 2 "a" (Some "/") [Text "Home"]))]).
Proof.
  apply (click_alerts_once sample "index.html" 2 (Element 2 "a" (Some "/") [Text "Home"])
           [Element 1 "nav" None
              [ Element 2 "a" (Some "/") [Text "Home"];
                Element 3 "a" (Some "/about")
                  [Element 4 "b" None [Text "About"]; Text " us"] ];
            sample] sample_NoDup).
  - apply list_elem_of_In. vm_compute. auto.
  - reflexivity.
  - intros j name h kids Hj. apply list_elem_of_In in Hj. simpl in Hj.
    destruct Hj as [Hj | [Hj | []]]; injection Hj as <- _ _ _; not_in_list.
Defined.

(** X20.  Setup does not recognise an earlier run: run twice, it
    leaves two listeners on every matched anchor, and a click on the
    anchor then shows its alert twice, one after the other. *)
Theorem setup_twice_doubles (doc : node) (url : string) (t : node_id) :
  NoDup (ids doc) ->
  t ∈ querySelectorAll nav_a doc ->
  length (registry (setup (setup (load doc url))))
    = 2 * length (querySelectorAll nav_a doc)
  /\ (exists g1 g2,
        listeners_of t "click" (registry (setup (setup (load doc url))))
        = [click_listener g1 t; click_listener g2 t])
  /\ (exists el p' rest,
        find_element t doc = Some el
        /\ click t (setup (setup (load doc url))) = Some p'
        /\ log p' = [PreventDefault; Alert ("You clicked on " +:+ textContent el);
                     PreventDefault; Alert ("You clicked on " +:+ textContent el)]
                      ++ rest).
Proof.
  intros Hnd Ht.
  pose proof (load_well_formed doc url Hnd) as Hwf0.
  pose proof (setup_well_formed _ Hwf0) as Hwf1.
  pose proof (setup_well_formed _ Hwf1) as Hwf2.
  assert (Hreg : registry (setup (setup (load doc url)))
                 = new_entries 0 (querySelectorAll nav_a doc)
                   ++ new_entries (length (querySelectorAll nav_a doc))
                                  (querySelectorAll nav_a doc)).
  { rewrite (setup_registry _ Hwf1), (setup_registry _ Hwf0). reflexivity. }
  assert (Hdoc : document (setup (setup (load doc url))) = doc).
  { rewrite (setup_registry _ Hwf1), (setup_registry _ Hwf0). reflexivity. }
  assert (Hlog : log (setup (setup (load doc url))) = []).
  { rewrite (setup_registry _ Hwf1), (setup_registry _ Hwf0). reflexivity. }
  pose proof (querySelectorAll_NoDup nav_a doc Hnd) as Hlinks.
  destruct (listeners_of_new_present t 0 _ Hlinks Ht) as [g1 Hg1].
  destruct (listeners_of_new_present t (length (querySelectorAll nav_a doc)) _ Hlinks Ht)
    as [g2 Hg2].
  assert (Hls : listeners_of t "click" (registry (setup (setup (load doc url))))
                = [click_listener g1 t; click_listener g2 t]).
  { rewrite Hreg, listeners_of_app, Hg1, Hg2. reflexivity. }
  split; [rewrite Hreg, length_app, !length_new_entries; lia |].
  split; [exists g1, g2; exact Hls |].
  destruct (event_path_is_Some t doc (querySelectorAll_ids _ _ _ Ht))
    as (name & h & kids & rest & Hpath & Hfind).
  assert (Hpath' : event_path t (document (setup (setup (load doc url))))
                   = Some (Element t name h kids :: rest))
    by (rewrite Hdoc; exact Hpath).
  exists (Element t name h kids).
  rewrite (click_result t _ _ Hwf2 Hpath'). cbn zeta.
  assert (Htr : triggered t (setup (setup (load doc url)))
                = click_listener g1 t :: click_listener g2 t
                    :: invoked rest (registry (setup (setup (load doc url))))).
  { unfold triggered. rewrite Hpath'. unfold invoked at 1. cbn [List.map concat].
    rewrite Hls. reflexivity. }
  rewrite Htr. rewrite bool_decide_eq_false_2 by discriminate. cbn [negb].
  eexists. eexists. split; [exact Hfind |]. split; [reflexivity |].
  cbn [List.map concat extend log]. rewrite Hlog. cbn [app].
  unfold handler_effects at 1 2. cbn [click_listener l_callback link].
  unfold textContent_of. rewrite Hdoc, Hfind. reflexivity.
Qed.

Lemma setup_twice_doubles_witness :
  length (registry (setup (setup (load sample "index.html"))))
    = 2 * length (querySelectorAll nav_a sample)
  /\ (exists g1 g2,
        listeners_of 3 "click" (registry (setup (setup (load sample "index.html"))))
        = [click_listener g1 3; click_listener g2 3])
  /\ (exists el p' rest,
        find_element 3 sample = Some el
        /\ click 3 (setup (setup (load sample "index.html"))) = Some p'
        /\ log p' = [PreventDefault; Alert ("You clicked on " +:+ textContent el);
                     PreventDefault; Alert ("You clicked on " +:+ textContent el)]
                      ++ rest).
Proof.
  apply (setup_twice_doubles sample "index.html" 3 sample_NoDup).
  apply list_elem_of_In. vm_compute. auto.
Defined.

(** *** Which elements the selector matches *)

Lemma matches_nav_a_iff (ancs : list string) (name : string) :
  matches nav_a ancs name = true <-> name = "a" /\ "nav" ∈ ancs.
Proof.
  split; [apply matches_nav_a |]. intros [-> Hin]. unfold nav_a. cbn [matches].
  rewrite String.eqb_refl. cbn [andb].
  induction Hin as [a l | a b l _ IH].
  - cbn [matches]. rewrite String.eqb_refl. reflexivity.
  - rewrite IH. apply orb_true_r.
Qed.

Lemma event_path_head (t : node_id) (k : node) (p : list node) :
  event_path t k = Some p ->
  exists name h kids rest, p = Element t name h kids :: rest.
Proof.
  intros Hp. destruct (event_path_is_Some t k (event_path_ids _ _ _ Hp))
    as (name & h & kids & rest & Hq & _).
  rewrite Hq in Hp. injection Hp as <-. eauto.
Qed.

Lemma select_nav_a_path (t : node_id) (n : node) (ancs : list string) :
  NoDup (ids n) ->
  t ∈ select nav_a ancs n <->
  exists h kids rest,
    event_path t n = Some (Element t "a" h kids :: rest)
    /\ ((exists j h' kids', Element j "nav" h' kids' ∈ rest) \/ "nav" ∈ ancs).
Proof.
  revert ancs. induction n as [s | j nm hj kids IH] using node_nested_ind;
    intros ancs Hnd.
  - cbn [select event_path]. split; [intros H; inversion H |].
    intros (h & kids & rest & H & _). discriminate H.
  - cbn [ids] in Hnd. apply NoDup_cons in Hnd as [Hj Hnd].
    cbn [select event_path]. rewrite elem_of_app.
    destruct (Nat.eqb_spec t j) as [-> | Hne].
    + assert (Hnot : j ∉ concat (List.map (select nav_a (nm :: ancs)) kids)).
      { intros Hin. apply Hj. apply elem_of_concat_map in Hin as (k & Hk & Hin).
        apply elem_of_concat_map. exists k. split; [exact Hk |].
        eapply elem_of_sublist; [exact Hin | apply select_sublist]. }
      split.
      * intros [Hm | Hin]; [| contradiction].
        destruct (matches nav_a ancs nm) eqn:Hmt; [| inversion Hm].
        apply matches_nav_a_iff in Hmt as [-> Hnav].
        exists hj, kids, []. split; [reflexivity | right; exact Hnav].
      * intros (h & kids' & rest & Hp & Hnav). injection Hp as -> <- <- <-.
        left. destruct Hnav as [(j' & h' & k' & Hin) | Hnav]; [inversion Hin |].
        rewrite (proj2 (matches_nav_a_iff ancs "a")) by (split; [reflexivity | exact Hnav]).
        left.
    + rewrite Forall_forall in IH. split.
      * intros [Hm | Hin].
        { destruct (matches nav_a ancs nm); [| inversion Hm].
          apply list_elem_of_singleton in Hm. contradiction. }
        apply elem_of_concat_map in Hin as (k & Hk & Hin).
        apply (IH k Hk (nm :: ancs) (NoDup_kid kids k Hnd Hk)) in Hin
          as (h & kids' & rest & Hp & Hnav).
        rewrite (first_some_event_path t kids k _ Hnd Hk Hp).
        exists h, kids', (rest ++ [Element j nm hj kids]). split; [reflexivity |].
        destruct Hnav as [(j' & h' & k' & Hin) | Hnav].
        -- left. exists j', h', k'. apply elem_of_app. left. exact Hin.
        -- apply elem_of_cons in Hnav as [<- | Hnav]; [| right; exact Hnav].
           left. exists j, hj, kids. apply elem_of_app. right. left.
      * intros (h & kids' & rest & Hp & Hnav). right.
        destruct (first_some (event_path t) kids) as [p |] eqn:Hfirst; [| discriminate].
        injection Hp as Hp.
        destruct (first_some_Some _ _ _ Hfirst) as (k & Hk & Hpk).
        destruct (event_path_head t k p Hpk) as (name & h0 & kids0 & rest0 & ->).
        cbn [app] in Hp. injection Hp as -> -> -> <-.
        apply elem_of_concat_map. exists k. split; [exact Hk |].
        apply (IH k Hk (nm :: ancs) (NoDup_kid kids k Hnd Hk)).
        exists h, kids', rest0. split; [exact Hpk |].
        destruct Hnav as [(j' & h' & k' & Hin) | Hnav].
        -- apply elem_of_app in Hin as [Hin | Hin].
           ++ left. exists j', h', k'. exact Hin.
           ++ apply list_elem_of_singleton in Hin. injection Hin as _ <- _ _.
              right. left.
        -- right. right. exact Hnav.
Qed.

(** X21.  In a document whose elements are distinct, the selector
    "nav a" matches exactly the [a] elements that have a [nav] element
    among their ancestors; these are the elements setup binds. *)
Theorem nav_a_matches_anchors_below_nav (doc : node) (t : node_id) :
  NoDup (ids doc) ->
  t ∈ querySelectorAll nav_a doc <->
  exists h kids rest,
    event_path t doc = Some (Element t "a" h kids :: rest)
    /\ exists j h' kids', Element j "nav" h' kids' ∈ rest.
Proof.
  intros Hnd. unfold querySelectorAll. rewrite (select_nav_a_path t doc [] Hnd).
  split; intros (h & kids & rest & Hp & Hnav); exists h, kids, rest; split; try exact Hp.
  - destruct Hnav as [Hnav | Hin]; [exact Hnav | inversion Hin].
  - left. exact Hnav.
Qed.

Lemma nav_a_matches_anchors_below_nav_witness :
  3 ∈ querySelectorAll nav_a sample <->
  exists h kids rest,
    event_path 3 sample = Some (Element 3 "a" h kids :: rest)
    /\ exists j h' kids', Element j "nav" h' kids' ∈ rest.
Proof. apply (nav_a_matches_anchors_below_nav sample 3 sample_NoDup). Defined.

End NavMore.
